(** * Bluff-RAG source finder: a shallow embedding of [source_finder.py]

    The development follows the class [SourceFinder]: the trust-table loader,
    the keyword tokenizer and relevance scorer, the domain classifier, the
    search and extraction wrappers, the orchestrating loop [find_sources],
    the pairing of sources into a clear and an unclear set, and the
    fail-soft [build].

    Conventions of the embedding.
    - A Python [str] is a [string]; a character is a code point below 256
      (Latin-1), and [lower], [strip] and the regular expression classes
      follow Python's behaviour on that range.
    - A Python [float] is an exact rational of [Q]: rounding is not modelled.
    - An exception is a value of [exn]; a computation that may raise returns
      an [outcome]; [try ... except Exception] is [try_except].
    - Library functions the module imports ([ENGLISH_STOP_WORDS],
      [fuzz.token_set_ratio], the IP-literal check of [urlsplit]) and the
      order in which the interpreter iterates over a set are fields of
      [Libs]; the collaborators (search provider, page fetcher and
      extractor, file system, clock) are fields of [Env].
    - [random.shuffle] is the Fisher-Yates loop of CPython's [random] module
      driven by a tape of raw draws, threaded through the calls.
    - Progress narration on standard output is not modelled, except for the
      diagnostics of the trust-table loader. *)

From Stdlib Require Import QArith Qcanon Lqa.
From stdpp Require Import gmap strings list pretty.
From Stdlib Require Import Ascii.


(** ** Python strings *)

Definition code (c : ascii) : nat := nat_of_ascii c.

Definition within (lo hi n : nat) : bool := (lo <=? n) && (n <=? hi).

(** [str.lower] on one code point below 256: A-Z, and the Latin-1 capitals
    0xC0-0xDE apart from the multiplication sign 0xD7. *)
Definition lower_char (c : ascii) : ascii :=
  let n := code c in
  if within 65 90 n || (within 192 222 n && negb (n =? 215))
  then ascii_of_nat (n + 32) else c.

Fixpoint lower (s : string) : string :=
  match s with
  | EmptyString => EmptyString
  | String c s' => String (lower_char c) (lower s')
  end.

(** [str.isspace] below 256. *)
Definition isspace (c : ascii) : bool :=
  let n := code c in
  within 9 13 n || within 28 32 n || (n =? 133) || (n =? 160).

Fixpoint lstrip_by (p : ascii → bool) (s : string) : string :=
  match s with
  | EmptyString => EmptyString
  | String c s' => if p c then lstrip_by p s' else s
  end.

Fixpoint rstrip_by (p : ascii → bool) (s : string) : string :=
  match s with
  | EmptyString => EmptyString
  | String c s' =>
      match rstrip_by p s' with
      | EmptyString => if p c then EmptyString else String c EmptyString
      | r => String c r
      end
  end.

(** [s.strip()] *)
Definition strip (s : string) : string := rstrip_by isspace (lstrip_by isspace s).

(** [s[:n]] *)
Fixpoint str_take (n : nat) (s : string) : string :=
  match n, s with
  | S n', String c s' => String c (str_take n' s')
  | _, _ => EmptyString
  end.

(** [s[n:]] *)
Fixpoint str_drop (n : nat) (s : string) : string :=
  match n, s with
  | S n', String _ s' => str_drop n' s'
  | _, _ => s
  end.

(** [s.startswith(p)] *)
Fixpoint startswith (p s : string) : bool :=
  match p, s with
  | EmptyString, _ => true
  | String a p', String b s' => bool_decide (a = b) && startswith p' s'
  | String _ _, EmptyString => false
  end.

(** [p in s] for strings: [p] occurs in [s] as a contiguous substring. *)
Fixpoint contains (p s : string) : bool :=
  startswith p s ||
  match s with
  | EmptyString => false
  | String _ s' => contains p s'
  end.

(** [s.endswith(p)] *)
Fixpoint endswith (p s : string) : bool :=
  bool_decide (s = p) ||
  match s with
  | EmptyString => false
  | String _ s' => endswith p s'
  end.

(** [c in s] for a character. *)
Fixpoint has_char (c : ascii) (s : string) : bool :=
  match s with
  | EmptyString => false
  | String d s' => bool_decide (c = d) || has_char c s'
  end.

Fixpoint str_filter (p : ascii → bool) (s : string) : string :=
  match s with
  | EmptyString => EmptyString
  | String c s' => if p c then String c (str_filter p s') else str_filter p s'
  end.

Fixpoint str_forall (p : ascii → bool) (s : string) : bool :=
  match s with
  | EmptyString => true
  | String c s' => p c && str_forall p s'
  end.

(** [s.replace("www.", "")]: every occurrence, scanning left to right
    without overlap. *)
Fixpoint replace_www (s : string) : string :=
  match s with
  | String "w" (String "w" (String "w" (String "." rest))) => replace_www rest
  | String c s' => String c (replace_www s')
  | EmptyString => EmptyString
  end.

(** [s * n] *)
Fixpoint str_repeat (s : string) (n : nat) : string :=
  match n with
  | 0 => EmptyString
  | S n' => s +:+ str_repeat s n'
  end.

(** Truthiness of a string: non-empty. *)
Definition truthy (s : string) : bool :=
  match s with EmptyString => false | _ => true end.


(** ** The word pattern of the tokenizer

    [re.findall(r'\b[a-zA-Z]+\b', s)].  [\w] is a letter, a digit or the
    underscore; below 256 the letters and digits outside ASCII are 0xAA,
    0xB2, 0xB3, 0xB5, 0xB9, 0xBA, 0xBC-0xBE, 0xC0-0xD6, 0xD8-0xF6 and
    0xF8-0xFF.  [\b] holds between a [\w] character and a character that is
    not, or the start or end of the string.  As every [a-zA-Z] is a [\w]
    character, a match can only start at the beginning of a maximal run of
    [\w] characters and can only end at the end of that run: the matches are
    the maximal [\w] runs that consist of ASCII letters only, in order. *)

Definition is_ascii_letter (c : ascii) : bool :=
  let n := code c in within 65 90 n || within 97 122 n.

Definition is_word_char (c : ascii) : bool :=
  let n := code c in
  is_ascii_letter c || within 48 57 n || (n =? 95) ||
  (n =? 170) || (n =? 178) || (n =? 179) || (n =? 181) || (n =? 185) ||
  (n =? 186) || within 188 190 n || within 192 214 n || within 216 246 n ||
  within 248 255 n.

(** The maximal runs of [\w] characters of [s], in order. *)
Fixpoint word_runs (s : string) : list string :=
  match s with
  | EmptyString => []
  | String c s' =>
      let rest := word_runs s' in
      if is_word_char c then
        match s', rest with
        | String d _, r :: rs =>
            if is_word_char d then String c r :: rs
            else String c EmptyString :: r :: rs
        | _, rs => String c EmptyString :: rs
        end
      else rest
  end.

Definition findall_words (s : string) : list string :=
  filter (λ r, str_forall is_ascii_letter r = true) (word_runs s).

(** ** Exceptions *)

(** The exception classes that occur in the module or that its
    collaborators raise.  [KeyboardInterrupt] and [SystemExit] derive from
    [BaseException] only; all others derive from [Exception]. *)
Inductive exn : Type :=
  | FileNotFoundError
  | PermissionError
  | IsADirectoryError
  | JSONDecodeError
  | UnicodeDecodeError
  | AttributeError
  | TypeError
  | ValueError
  | IndexError
  | ZeroDivisionError
  | FuturesTimeout
  | OSError
  | RuntimeError
  | KeyboardInterrupt
  | SystemExit.

#[global] Instance exn_eq_dec : EqDecision exn.
Proof. solve_decision. Defined.

(** [isinstance(e, Exception)] *)
Definition is_Exception (e : exn) : bool :=
  match e with
  | KeyboardInterrupt | SystemExit => false
  | _ => true
  end.

Inductive outcome (A : Type) : Type :=
  | Ret (a : A)
  | Raise (e : exn).
Arguments Ret {A} a.
Arguments Raise {A} e.

#[global] Instance outcome_ret : MRet outcome := λ A a, Ret a.

#[global] Instance outcome_bind : MBind outcome := λ A B k m,
  match m with
  | Ret a => k a
  | Raise e => Raise e
  end.

(** [try: m  except cls: h] where [cls] is given by the predicate [catches]. *)
Definition try_catch {A : Type} (catches : exn → bool)
    (m : outcome A) (h : exn → outcome A) : outcome A :=
  match m with
  | Ret a => Ret a
  | Raise e => if catches e then h e else Raise e
  end.

(** [try: m  except Exception as e: h e] *)
Definition try_except {A : Type} (m : outcome A) (h : exn → outcome A) : outcome A :=
  try_catch is_Exception m h.

(** A loop [for x in xs: acc = body(acc, x)] in which the body may raise. *)
Fixpoint for_each {A S : Type} (body : S → A → outcome S) (xs : list A) (acc : S)
    : outcome S :=
  match xs with
  | [] => Ret acc
  | x :: xs' => acc' ← body acc x; for_each body xs' acc'
  end.

(** [l[i]] *)
Definition py_index {A : Type} (l : list A) (i : nat) : outcome A :=
  match l !! i with
  | Some a => Ret a
  | None => Raise IndexError
  end.

(** [a / b] on non-negative integers, as a float. *)
Definition true_div (a b : nat) : outcome Q :=
  match b with
  | 0 => Raise ZeroDivisionError
  | S _ => Ret (inject_Z (Z.of_nat a) / inject_Z (Z.of_nat b))%Q
  end.

(** ** JSON values and the members of a set *)

(** The value of an [int] or a [float]: integers and finite floats are
    rationals and compare by value; [json.load] also yields the infinities
    and the one object [json.decoder.NaN]. *)
Inductive number : Type :=
  | Finite (q : Qc)
  | Infinity (negative : bool)
  | NaN.

(** A value as [json.load] returns it.  An object is given by the items of
    the dict built for it, whose keys are distinct. *)
#[warnings="-register-all"]
Inductive json : Type :=
  | JNull
  | JBool (b : bool)
  | JNumber (x : number)
  | JString (s : string)
  | JArray (elems : list json)
  | JObject (items : list (string * json)).

(** What a set built from JSON values can hold: the hashable values.  For
    Python [True] equals 1 and [False] equals 0, with equal hashes, so the
    booleans are the numbers 1 and 0 as members of a set. *)
Inductive entry : Type :=
  | EStr (s : string)
  | ENum (x : number)
  | ENone.

#[global] Instance number_eq_dec : EqDecision number.
Proof. solve_decision. Defined.

#[global] Instance number_countable : Countable number :=
  inj_countable'
    (λ x, match x with
          | Finite q => inl q
          | Infinity b => inr (Some b)
          | NaN => inr None
          end)
    (λ y, match y with
          | inl q => Finite q
          | inr (Some b) => Infinity b
          | inr None => NaN
          end)
    (λ x, match x with Finite _ | Infinity _ | NaN => eq_refl end).

#[global] Instance entry_eq_dec : EqDecision entry.
Proof. solve_decision. Defined.

#[global] Instance entry_countable : Countable entry :=
  inj_countable'
    (λ e, match e with
          | EStr s => inl s
          | ENum q => inr (Some q)
          | ENone => inr None
          end)
    (λ x, match x with
          | inl s => EStr s
          | inr (Some q) => ENum q
          | inr None => ENone
          end)
    (λ e, match e with EStr _ | ENum _ | ENone => eq_refl end).

(** [hash(x)] for the element of an iteration: lists and dicts are
    unhashable. *)
Definition entry_of (x : json) : outcome entry :=
  match x with
  | JString s => Ret (EStr s)
  | JNumber x => Ret (ENum x)
  | JBool b => Ret (ENum (Finite (if b then 1 else 0)%Qc))
  | JNull => Ret ENone
  | JArray _ | JObject _ => Raise TypeError
  end.

Fixpoint hash_all (l : list json) : outcome (list entry) :=
  match l with
  | [] => Ret []
  | x :: l' => e ← entry_of x; es ← hash_all l'; Ret (e :: es)
  end.

(** The characters of a string, as iterating over it yields them. *)
Fixpoint chars_of (s : string) : list string :=
  match s with
  | EmptyString => []
  | String c s' => String c EmptyString :: chars_of s'
  end.

(** The members that [set.update(v)] adds: the elements of an array, the
    characters of a string, the keys of an object; [None], a boolean and a
    number are not iterable. *)
Definition members (v : json) : outcome (list entry) :=
  match v with
  | JArray elems => hash_all elems
  | JString s => Ret (EStr <$> chars_of s)
  | JObject items => Ret (EStr <$> items.*1)
  | JNull | JBool _ | JNumber _ => Raise TypeError
  end.

(** [acc.update(v)] *)
Definition set_update (acc : gset entry) (v : json) : outcome (gset entry) :=
  new ← members v; Ret (acc ∪ list_to_set new).

(** ** Imported library functions *)

(** What the module imports from other packages and uses as pure functions:
    the stop-word set of scikit-learn, the token-set similarity of rapidfuzz
    (a percentage), and the validation that [urllib.parse.urlsplit] applies to
    a network location holding a bracketed host (Python versions differ in
    it; it decides between returning the location and [ValueError]).
    [set_iter X] is the sequence in which iterating over the set [X] yields
    its members: the interpreter fixes it by the hashes of the members, the
    program only knows that every member comes once. *)
Record Libs : Type := {
  ENGLISH_STOP_WORDS : gset string;
  token_set_ratio : string → string → Q;
  bracketed_netloc_ok : string → bool;
  set_iter : gset entry → list entry;
  set_iter_perm : ∀ X, set_iter X ≡ₚ elements X;
}.

(** ** [urllib.parse.urlparse(url).netloc] *)

Definition is_digit (c : ascii) : bool := within 48 57 (code c).

Definition is_scheme_char (c : ascii) : bool :=
  is_ascii_letter c || is_digit c ||
  bool_decide (c = "+"%char) || bool_decide (c = "-"%char) || bool_decide (c = "."%char).

Definition is_c0_control_or_space (c : ascii) : bool := code c <=? 32.

Definition is_unsafe_url_byte (c : ascii) : bool :=
  (code c =? 9) || (code c =? 13) || (code c =? 10).

(** The text after the first colon, when every character before it is a
    scheme character. *)
Fixpoint after_scheme (s : string) : option string :=
  match s with
  | EmptyString => None
  | String c s' =>
      if bool_decide (c = ":"%char) then Some s'
      else if is_scheme_char c then after_scheme s' else None
  end.

Definition strip_scheme (url : string) : string :=
  match url with
  | String c _ =>
      if is_ascii_letter c then
        match after_scheme url with Some rest => rest | None => url end
      else url
  | EmptyString => url
  end.

Definition is_netloc_delim (c : ascii) : bool :=
  bool_decide (c = "/"%char) || bool_decide (c = "?"%char) || bool_decide (c = "#"%char).

Fixpoint take_until (p : ascii → bool) (s : string) : string :=
  match s with
  | EmptyString => EmptyString
  | String c s' => if p c then EmptyString else String c (take_until p s')
  end.

Definition netloc_of (url : string) : string :=
  if startswith "//" url then take_until is_netloc_delim (str_drop 2 url)
  else EmptyString.

(** [urlsplit] as in CPython 3.11: leading C0 controls and spaces are
    stripped, tabs and line breaks removed, a valid scheme is split off, and
    the network location is what follows [//] up to the first of [/], [?],
    [#].  A location with one bracket but not the other is a [ValueError];
    one with both is validated.  The NFKC check on the location never fails
    for code points below 256. *)
Definition urlparse_netloc (L : Libs) (url : string) : outcome string :=
  let url := lstrip_by is_c0_control_or_space url in
  let url := str_filter (λ c, negb (is_unsafe_url_byte c)) url in
  let netloc := netloc_of (strip_scheme url) in
  let lb := has_char "["%char netloc in
  let rb := has_char "]"%char netloc in
  if xorb lb rb then Raise ValueError
  else if lb && rb && negb (bracketed_netloc_ok L netloc) then Raise ValueError
  else Ret netloc.

(** ** Data model *)

Inductive category : Type := reliable | unreliable | unknown.

#[global] Instance category_eq_dec : EqDecision category.
Proof. solve_decision. Defined.

(** The dict that [find_sources] appends to [all_sources]. *)
Record Source : Type := {
  url : string;
  domain : string;
  cat : category;
  score : Q;
  text : string;
  title : string;
  snippet : string;
}.

(** The dict that [format_source] returns. *)
Record FormattedSource : Type := {
  f_url : string;
  f_domain : string;
  f_category : category;
  f_title : string;
  f_text : string;
  f_timestamp : string;
  f_score : Q;
}.

Record PairedResult : Type := {
  clear_set : list FormattedSource;
  unclear_set : list FormattedSource;
}.

Definition empty_result : PairedResult := {| clear_set := []; unclear_set := [] |}.

(** A hit as the search provider returns it: a dict that may lack keys. *)
Record raw_result : Type := {
  href : option string;
  link : option string;
  raw_url : option string;
  raw_title : option string;
  body : option string;
}.

(** The dict that [_search_duckduckgo] builds for a hit. *)
Record search_result : Type := {
  r_url : string;
  r_title : string;
  r_snippet : string;
}.

(** The parsed trust configuration.  A topic section that is a JSON object
    carries the values found under ["reliable"] and ["misleading"], when the
    keys are present; its other keys are never read.  Any other JSON value
    in place of a section is [NotADict], and any other JSON value in place
    of the top-level object is [ConfigOther]. *)
Inductive topic_cfg : Type :=
  | TopicDict (reliable_value misleading_value : option json)
  | NotADict.

Inductive config_json : Type :=
  | ConfigDict (items : list (string * topic_cfg))
  | ConfigOther.

(** The debug snapshot written before pairing. *)
Record scraped_data : Type := {
  sd_gold_query : string;
  sd_topic : string;
  sd_reliable : nat;
  sd_unreliable : nat;
  sd_unknown : nat;
  sd_total : nat;
  sd_sources : list Source;
  sd_timestamp : string;
}.

(** ** Collaborators *)

(** - [read_json path] is [open(path, 'r')] followed by [json.load].
    - [ddgs_text query max_results] is the iteration over
      [DDGS().text(query, ...)]: the hits delivered, and the exception that
      ended the iteration if one did.
    - [fetch_url] and [trafilatura_extract] are the two trafilatura calls of
      the extraction worker; [finishes_in_time url] tells whether the worker
      for [url] completes within the 10 second limit.
    - [write_snapshot] is [open("scraped_sources.json", "w")] followed by
      [json.dump]: the exception it raised, if any.
    - [now_isoformat n] is the [n]-th reading of
      [datetime.now().isoformat()] of the run. *)
Record Env : Type := {
  read_json : string → outcome config_json;
  ddgs_text : string → nat → list raw_result * option exn;
  fetch_url : string → outcome (option string);
  trafilatura_extract : string → outcome (option string);
  finishes_in_time : string → bool;
  write_snapshot : scraped_data → option exn;
  now_isoformat : nat → string;
}.

(** ** The object state *)

Record SourceFinder : Type := {
  gold_query : string;
  domain_trust_config_path : string;
  topic : string;
  reliable_domains : gset entry;
  unreliable_domains : gset entry;
  stopwords : gset string;
  search_queries : list (string * list string);
}.

Definition set_domains (self : SourceFinder) (r u : gset entry) : SourceFinder :=
  {| gold_query := gold_query self;
     domain_trust_config_path := domain_trust_config_path self;
     topic := topic self;
     reliable_domains := r;
     unreliable_domains := u;
     stopwords := stopwords self;
     search_queries := search_queries self |}.

(** ** [_load_domain_config] *)

(** The loop over [config.items()]: sections that are not objects are
    skipped, the others update both sets with the values under ["reliable"]
    and ["misleading"], an absent key counting as the empty list. *)
Fixpoint union_topics (items : list (string * topic_cfg))
    (reliable_acc unreliable_acc : gset entry) : outcome (gset entry * gset entry) :=
  match items with
  | [] => Ret (reliable_acc, unreliable_acc)
  | (_, NotADict) :: rest => union_topics rest reliable_acc unreliable_acc
  | (_, TopicDict r m) :: rest =>
      reliable_acc ← set_update reliable_acc (default (JArray []) r);
      unreliable_acc ← set_update unreliable_acc (default (JArray []) m);
      union_topics rest reliable_acc unreliable_acc
  end.

(** The body of the [try]: a top-level value that is not an object has no
    [items] method. *)
Definition load_body (E : Env) (self : SourceFinder)
    : outcome (SourceFinder * list string) :=
  config ← read_json E (domain_trust_config_path self);
  match config with
  | ConfigOther => Raise AttributeError
  | ConfigDict items =>
      '(r, u) ← union_topics items ∅ ∅;
      Ret (set_domains self r u,
           ["Domain config loaded (global): " +:+ pretty (size r) +:+
            " reliable, " +:+ pretty (size u) +:+ " unreliable"])
  end.

(** Returns the updated object and the lines printed. *)
Definition _load_domain_config (E : Env) (self : SourceFinder)
    : outcome (SourceFinder * list string) :=
  match load_body E self with
  | Ret r => Ret r
  | Raise FileNotFoundError =>
      Ret (set_domains self ∅ ∅,
           ["Warning: " +:+ domain_trust_config_path self +:+
            " not found, using empty domain lists"])
  | Raise JSONDecodeError =>
      Ret (set_domains self ∅ ∅,
           ["Error: Invalid JSON in " +:+ domain_trust_config_path self])
  | Raise e => Raise e
  end.

(** ** [_extract_topic_from_query] *)

Definition any_in (topics : list string) (q : string) : bool :=
  existsb (λ t, contains t q) topics.

Definition _extract_topic_from_query (query : string) : string :=
  let query_lower := lower query in
  if any_in ["health"; "medical"; "medicine"; "disease"; "treatment"] query_lower
  then "public_health"
  else if any_in ["finance"; "money"; "investment"; "economy"] query_lower
  then "finance"
  else if any_in ["politics"; "government"; "election"] query_lower
  then "politics"
  else if any_in ["technology"; "tech"; "software"] query_lower
  then "technology"
  else if any_in ["sports"; "game"; "athletic"] query_lower
  then "sports"
  else if any_in ["climate"; "environment"; "global warming"] query_lower
  then "climate"
  else "public_health".

(** ** [__init__] *)

Definition make_search_queries (gold_query : string) : list (string * list string) :=
  [ ("reliable",
     [ gold_query;
       gold_query +:+ " guidelines";
       gold_query +:+ " research";
       gold_query +:+ " government";
       gold_query +:+ " academic" ]);
    ("unreliable",
     [ gold_query;
       gold_query +:+ " reddit";
       gold_query +:+ " twitter";
       gold_query +:+ " natural medicine";
       gold_query +:+ " alternative treatment";
       gold_query +:+ " conspiracy";
       gold_query +:+ " natural news" ]) ].

Definition init (L : Libs) (E : Env) (gold_query : string) (path : string)
    : outcome (SourceFinder * list string) :=
  let self :=
    {| gold_query := gold_query;
       domain_trust_config_path := path;
       topic := _extract_topic_from_query gold_query;
       reliable_domains := ∅;
       unreliable_domains := ∅;
       stopwords := ∅;
       search_queries := [] |} in
  '(self, log) ← _load_domain_config E self;
  Ret ({| gold_query := gold_query;
          domain_trust_config_path := path;
          topic := topic self;
          reliable_domains := reliable_domains self;
          unreliable_domains := unreliable_domains self;
          stopwords := ENGLISH_STOP_WORDS L;
          search_queries := make_search_queries gold_query |},
       log).

(** ** [_extract_keywords] and [_compute_relevance_score] *)

Definition _extract_keywords (self : SourceFinder) (text : string) : list string :=
  let words := findall_words (lower text) in
  filter (λ word, (word ∉ stopwords self) ∧ (2 < String.length word)) words.

(** [sum(1 for keyword in query_keywords if keyword in text_lower)] *)
Definition count_hits (query_keywords : list string) (text_lower : string) : nat :=
  length (filter (λ keyword, contains keyword text_lower = true) query_keywords).

(** [keyword_hits / len(query_keywords)] for the lower-cased text. *)
Definition keyword_hit_rate (query_keywords : list string) (text : string) : outcome Q :=
  let text_lower := lower text in
  let keyword_hits := count_hits query_keywords text_lower in
  true_div keyword_hits (length query_keywords).

(** [fuzz.token_set_ratio(gold_query, text[:5000]) / 100.0] *)
Definition fuzzy_score (L : Libs) (gold_query text : string) : Q :=
  (token_set_ratio L gold_query (str_take 5000 text) / 100)%Q.

Definition _compute_relevance_score (L : Libs) (self : SourceFinder)
    (gold_query text : string) : outcome Q :=
  let query_keywords := _extract_keywords self gold_query in
  match query_keywords with
  | [] => Ret 0%Q
  | _ =>
      hit_rate ← keyword_hit_rate query_keywords text;
      Ret (0.6 * hit_rate + 0.4 * fuzzy_score L gold_query text)%Q
  end.

(** ** [_classify_domain] *)

(** [domain == d or domain.endswith("." + d)] *)
Definition domain_matches (domain d : string) : bool :=
  bool_decide (domain = d) || endswith ("." +:+ d) domain.

(** [any(domain == d or domain.endswith("." + d) for d in table)], over the
    members in the order of iteration: for a member that is not a string
    the comparison is false and ["." + d] raises [TypeError]. *)
Fixpoint any_match (domain : string) (members_in_order : list entry) : outcome bool :=
  match members_in_order with
  | [] => Ret false
  | EStr d :: rest =>
      if domain_matches domain d then Ret true else any_match domain rest
  | _ :: _ => Raise TypeError
  end.

Definition _classify_domain (L : Libs) (self : SourceFinder) (url : string)
    : outcome category :=
  try_except
    (netloc ← urlparse_netloc L url;
     let domain := replace_www (lower netloc) in
     in_reliable ← any_match domain (set_iter L (reliable_domains self));
     if (in_reliable : bool) then Ret reliable
     else
       in_unreliable ← any_match domain (set_iter L (unreliable_domains self));
       if (in_unreliable : bool) then Ret unreliable else Ret unknown)
    (λ _, Ret unknown).

(** ** [random.shuffle] *)

(** One draw of [randbelow(n)] from the tape; an exhausted tape yields 0. *)
Definition randbelow (n : nat) (tape : list nat) : nat * list nat :=
  (hd 0 tape mod n, tl tape).

(** [x[i], x[j] = x[j], x[i]]: the right-hand side is read first, then
    [x[i]] and [x[j]] are assigned in that order. *)
Definition swap {A : Type} (x : list A) (i j : nat) : list A :=
  match x !! j, x !! i with
  | Some xj, Some xi => <[j:=xi]> (<[i:=xj]> x)
  | _, _ => x
  end.

(** [for i in reversed(range(1, i + 1)): j = randbelow(i + 1); swap] *)
Fixpoint shuffle_from {A : Type} (i : nat) (x : list A) (tape : list nat)
    : list A * list nat :=
  match i with
  | 0 => (x, tape)
  | S i' =>
      let '(j, tape') := randbelow (S i) tape in
      shuffle_from i' (swap x i j) tape'
  end.

Definition shuffle {A : Type} (x : list A) (tape : list nat) : list A * list nat :=
  shuffle_from (length x - 1) x tape.

(** ** [_create_paired_sets] *)

Definition format_source (now : string) (source : Source) : FormattedSource :=
  {| f_url := url source;
     f_domain := domain source;
     f_category := cat source;
     f_title := title source;
     f_text := text source;
     f_timestamp := now;
     f_score := score source |}.

(** [[format_source(s) for s in l]], the clock being read once per element
    from reading [t] on. *)
Fixpoint format_all (E : Env) (t : nat) (l : list Source) : list FormattedSource :=
  match l with
  | [] => []
  | s :: l' => format_source (now_isoformat E t) s :: format_all E (S t) l'
  end.

Definition _create_paired_sets (E : Env) (sources : list Source)
    (tape : list nat) (t : nat) : outcome PairedResult :=
  let reliable_sources := filter (λ s, cat s = reliable) sources in
  let unreliable_sources := filter (λ s, cat s = unreliable) sources in
  let '(reliable_sources, tape) := shuffle reliable_sources tape in
  let '(unreliable_sources, tape) := shuffle unreliable_sources tape in
  let clear_set :=
    if 4 <=? length reliable_sources then take 4 reliable_sources
    else reliable_sources in
  clear_set ←
    (if 1 <=? length unreliable_sources then
       u ← py_index unreliable_sources 0; Ret (clear_set ++ [u])
     else Ret clear_set);
  unclear_set ←
    (if 5 <=? length reliable_sources then
       r ← py_index reliable_sources 4; Ret [r]
     else Ret []);
  let unclear_set :=
    if 4 <=? length unreliable_sources
    then unclear_set ++ take 3 (drop 1 unreliable_sources)
    else unclear_set ++ drop 1 unreliable_sources in
  Ret {| clear_set := format_all E t clear_set;
         unclear_set := format_all E (t + length clear_set) unclear_set |}.

(** ** [_search_duckduckgo] *)

(** [a or b] on values that are a string or absent. *)
Definition py_or (a b : option string) : option string :=
  match a with
  | Some s => if truthy s then a else b
  | None => b
  end.

(** The loop body: a hit without a usable url is skipped. *)
Definition hit_of (result : raw_result) : option search_result :=
  match py_or (py_or (href result) (link result)) (raw_url result) with
  | Some u =>
      if truthy u then
        Some {| r_url := u;
                r_title := default "" (raw_title result);
                r_snippet := default "" (body result) |}
      else None
  | None => None
  end.

Definition _search_duckduckgo (E : Env) (query : string) (max_results : nat)
    : outcome (list search_result) :=
  let '(hits, err) := ddgs_text E query max_results in
  let results := omap hit_of hits in
  try_except
    (match err with
     | None => Ret results
     | Some e => Raise e
     end)
    (λ _, Ret results).

(** ** [_extract_text_from_url] *)

(** The worker [_do_extract]. *)
Definition _do_extract (E : Env) (url : string) : outcome (option string) :=
  try_except
    (downloaded ← fetch_url E url;
     match downloaded with
     | None => Ret None
     | Some d =>
         if negb (truthy d) then Ret None
         else
           text ← trafilatura_extract E d;
           match text with
           | Some t => if truthy t then Ret (Some (strip t)) else Ret None
           | None => Ret None
           end
     end)
    (λ _, Ret None).

(** [future.result(timeout=10)]: the worker's result or exception when it
    completes in time, [FuturesTimeout] otherwise. *)
Definition future_result (E : Env) (url : string) : outcome (option string) :=
  if finishes_in_time E url then _do_extract E url else Raise FuturesTimeout.

Definition _extract_text_from_url (E : Env) (url : string) : outcome (option string) :=
  r ← try_catch (λ e, bool_decide (e = FuturesTimeout))
        (text ← future_result E url; Ret (Some text))
        (λ _, Ret None);
  match r with
  | None => Ret None
  | Some text =>
      match text with
      | Some t => if truthy t && (400 <=? String.length t) then Ret (Some t) else Ret None
      | None => Ret None
      end
  end.

(** ** [find_sources] *)

(** [a < b] on floats. *)
Definition Qlt_bool (a b : Q) : bool := negb (Qle_bool b a).

(** The body of the innermost loop: the hit is rejected ([continue]) or a
    source is appended to [all_sources]. *)
Definition process_result (L : Libs) (E : Env) (self : SourceFinder)
    (all_sources : list Source) (result : search_result) : outcome (list Source) :=
  let url := r_url result in
  text ← _extract_text_from_url E url;
  match text with
  | None => Ret all_sources
  | Some text =>
      if negb (truthy text) then Ret all_sources
      else
        score ← _compute_relevance_score L self (gold_query self) text;
        if Qlt_bool score 0.35 then Ret all_sources
        else
          category ← _classify_domain L self url;
          netloc ← urlparse_netloc L url;
          Ret (all_sources ++
               [ {| url := url;
                    domain := replace_www netloc;
                    cat := category;
                    score := score;
                    text := str_take 1000 text;
                    title := r_title result;
                    snippet := r_snippet result |} ])
  end.

Definition process_query (L : Libs) (E : Env) (self : SourceFinder)
    (all_sources : list Source) (query : string) : outcome (list Source) :=
  search_results ← _search_duckduckgo E query 15;
  for_each (process_result L E self) search_results all_sources.

Definition collect_sources (L : Libs) (E : Env) (self : SourceFinder)
    : outcome (list Source) :=
  for_each
    (λ all_sources '(source_type, queries),
       for_each (process_query L E self) queries all_sources)
    (search_queries self) [].

Definition count_category (c : category) (l : list Source) : nat :=
  length (filter (λ s, cat s = c) l).

(** The dict [scraped_data] of the debug dump; the clock is read for it. *)
Definition scraped (E : Env) (self : SourceFinder) (all_sources : list Source)
    : scraped_data :=
  {| sd_gold_query := gold_query self;
     sd_topic := topic self;
     sd_reliable := count_category reliable all_sources;
     sd_unreliable := count_category unreliable all_sources;
     sd_unknown := count_category unknown all_sources;
     sd_total := length all_sources;
     sd_sources := all_sources;
     sd_timestamp := now_isoformat E 0 |}.

(** The debug dump, inside its own [try ... except Exception]. *)
Definition dump_sources (E : Env) (self : SourceFinder) (all_sources : list Source)
    : outcome unit :=
  try_except
    (match write_snapshot E (scraped E self all_sources) with
     | None => Ret ()
     | Some e => Raise e
     end)
    (λ _, Ret ()).

(** [tape] holds the draws that the two shuffles will consume. *)
Definition find_sources (L : Libs) (E : Env) (self : SourceFinder)
    (tape : list nat) : outcome PairedResult :=
  all_sources ← collect_sources L E self;
  _ ← dump_sources E self all_sources;
  _create_paired_sets E all_sources tape 1.

(** ** [build] *)

Definition build (L : Libs) (E : Env) (self : SourceFinder) (tape : list nat)
    : outcome PairedResult :=
  try_except
    (paired_sets ← find_sources L E self tape;
     Ret {| clear_set := clear_set paired_sets;
            unclear_set := unclear_set paired_sets |})
    (λ _, Ret empty_result).

(** ** Auxiliary definitions for the statements *)

Definition is_lower_letter (c : ascii) : bool := within 97 122 (code c).

Definition not_upper (c : ascii) : bool := negb (within 65 90 (code c)).




(** The slices of the shuffled pools that the two sets are made of. *)
Definition clear_of (rs us : list Source) : list Source := take 4 rs ++ take 1 us.

Definition unclear_of (rs us : list Source) : list Source :=
  take 1 (drop 4 rs) ++ take 3 (drop 1 us).

(** [d] equals [e] or ends with a dot followed by [e]. *)
Definition dot_match (d e : string) : Prop := d = e ∨ ∃ p, d = p +:+ "." +:+ e.

(** A table that holds domain names only, as a configuration whose lists
    are lists of strings gives. *)
Definition str_table (table : gset entry) : Prop :=
  ∀ e, e ∈ table → ∃ s, e = EStr s.

(** ** The classifier as the specification words it

    The definitions of this part follow the specification, not the code: the
    host of the URL (its network location without user information and
    port), lower-cased, a leading ["www."] stripped, matched against the
    reliable table and then the unreliable one. *)

(** [netloc.rpartition('@')[2]] *)
Fixpoint after_last_at (s : string) : string :=
  match s with
  | EmptyString => EmptyString
  | String c s' =>
      if has_char "@"%char s' then after_last_at s'
      else if bool_decide (c = "@"%char) then s' else s
  end.

Definition spec_host (netloc : string) : string :=
  take_until (λ c, bool_decide (c = ":"%char)) (after_last_at netloc).

Definition strip_leading_www (d : string) : string :=
  if startswith "www." d then str_drop 4 d else d.

(** [d] matches a domain of the table. *)
Definition spec_any_match (d : string) (table : gset entry) : bool :=
  existsb (λ e, match e with EStr s => domain_matches d s | _ => false end)
          (elements table).

Definition spec_classify (L : Libs) (self : SourceFinder) (url : string) : category :=
  match urlparse_netloc L url with
  | Ret netloc =>
      let d := strip_leading_www (lower (spec_host netloc)) in
      if spec_any_match d (reliable_domains self) then reliable
      else if spec_any_match d (unreliable_domains self) then unreliable
      else unknown
  | Raise _ => unknown
  end.

(** ** Concrete libraries, collaborators and inputs

    Used to run the definitions.  The similarity ratio of [demo_libs] is the
    constant 0, the least value a percentage can take: a page that is
    accepted with it is accepted with every ratio. *)

Definition demo_libs : Libs :=
  {| ENGLISH_STOP_WORDS := {["the"; "and"; "for"]};
     token_set_ratio := λ _ _, 0%Q;
     bracketed_netloc_ok := λ _, true;
     set_iter := elements;
     set_iter_perm := λ X, reflexivity (elements X) |}.

(** A page of 1260 characters that holds both keywords of the demo query. *)
Definition demo_page : string := str_repeat "Vaccine safety data. " 60.

Definition demo_hit (u : string) : raw_result :=
  {| href := Some u; link := None; raw_url := None;
     raw_title := Some "A page"; body := Some "A snippet" |}.

Definition demo_config : config_json :=
  ConfigDict [ ("public_health",
                TopicDict (Some (JArray [JString "example.org"]))
                          (Some (JArray [JString "rumor.net"])));
               ("notes", NotADict) ].

(** Collaborators that differ in the configuration read and in the search
    provider only: every page downloads in time and extracts to [page]. *)
Definition mk_env (config : outcome config_json)
    (search : string → nat → list raw_result * option exn) (page : string) : Env :=
  {| read_json := λ _, config;
     ddgs_text := search;
     fetch_url := λ _, Ret (Some "<html>");
     trafilatura_extract := λ _, Ret (Some page);
     finishes_in_time := λ _, true;
     write_snapshot := λ _, None;
     now_isoformat := λ n, "2026-01-01T00:00:" +:+ pretty n |}.

(** The search for the bare query fails; every other query finds one page. *)
Definition demo_env : Env :=
  mk_env (Ret demo_config)
    (λ q _, if bool_decide (q = "vaccine safety") then ([], Some RuntimeError)
            else ([demo_hit "http://www.example.org/a"], None))
    demo_page.

(** The search provider is interrupted from the keyboard. *)
Definition env_interrupted : Env :=
  mk_env (Ret demo_config) (λ _ _, ([], Some KeyboardInterrupt)) demo_page.

(** Every query finds a page whose url has an unbalanced bracket. *)
Definition env_bad_url : Env :=
  mk_env (Ret demo_config) (λ _ _, ([demo_hit "http://[example.org/a"], None)) demo_page.

(** The configuration file exists but may not be read. *)
Definition env_denied : Env :=
  mk_env (Raise PermissionError) (λ _ _, ([], None)) demo_page.

(** The configuration file holds a JSON array. *)
Definition env_array_config : Env :=
  mk_env (Ret ConfigOther) (λ _ _, ([], None)) demo_page.

(** The configuration file holds [{"a": {"reliable": 5}}]. *)
Definition env_scalar_config : Env :=
  mk_env (Ret (ConfigDict [ ("a", TopicDict (Some (JNumber (Finite (Q2Qc 5)))) None) ]))
         (λ _ _, ([], None)) demo_page.

Definition demo_self : SourceFinder :=
  {| gold_query := "vaccine safety";
     domain_trust_config_path := "domain_trust_config.json";
     topic := "public_health";
     reliable_domains := {[EStr "example.org"]};
     unreliable_domains := {[EStr "rumor.net"]};
     stopwords := ENGLISH_STOP_WORDS demo_libs;
     search_queries := make_search_queries "vaccine safety" |}.

Definition demo_source (u : string) (c : category) : Source :=
  {| url := u; domain := "example.org"; cat := c; score := 0.6%Q;
     text := "Vaccine safety data."; title := "A page"; snippet := "A snippet" |}.

(** Six reliable and five unreliable sources; the reliable ones all come
    from one url, as when several queries find the same page. *)
Definition repeated_sources : list Source :=
  replicate 6 (demo_source "http://www.example.org/a" reliable) ++
  replicate 5 (demo_source "http://rumor.net/b" unreliable).

(** Six reliable and five unreliable sources with eleven distinct urls, and
    two unknown ones. *)
Definition distinct_sources : list Source :=
  [ demo_source "http://example.org/1" reliable;
    demo_source "http://rumor.net/1" unreliable;
    demo_source "http://example.org/2" reliable;
    demo_source "http://elsewhere.com/1" unknown;
    demo_source "http://example.org/3" reliable;
    demo_source "http://rumor.net/2" unreliable;
    demo_source "http://rumor.net/3" unreliable;
    demo_source "http://example.org/4" reliable;
    demo_source "http://example.org/5" reliable;
    demo_source "http://rumor.net/4" unreliable;
    demo_source "http://elsewhere.com/1" unknown;
    demo_source "http://example.org/6" reliable;
    demo_source "http://rumor.net/5" unreliable ].

(** Two unreliable sources that come from one url. *)
Definition twin_sources : list Source :=
  replicate 2 (demo_source "http://rumor.net/b" unreliable).

Definition demo_result (u : string) : search_result :=
  {| r_url := u; r_title := "A page"; r_snippet := "A snippet" |}.

(** A source whose stored text has at most 1000 characters. *)
Definition short_text (s : Source) : Prop := String.length (text s) ≤ 1000.

(** ** Auxiliary definitions for the statements on the remaining code *)

(** [set.update] accepts the value that a section holds under a key (the
    empty list when the key is absent): the value is iterable and its
    elements are hashable. *)
Definition iterable (v : option json) : bool :=
  match members (default (JArray []) v) with
  | Ret _ => true
  | Raise _ => false
  end.

Definition section_ok (cfg : topic_cfg) : bool :=
  match cfg with
  | NotADict => true
  | TopicDict r m => iterable r && iterable m
  end.

Definition sections_ok (items : list (string * topic_cfg)) : bool :=
  forallb (λ kv, section_ok kv.2) items.

(** [e] is one of the members that the value [v] adds to a set. *)
Definition listed (e : entry) (v : json) : Prop :=
  ∃ l, members v = Ret l ∧ e ∈ l.

(** The labels that [_extract_topic_from_query] can return. *)
Definition topic_labels : list string :=
  ["public_health"; "finance"; "politics"; "technology"; "sports"; "climate"].

(** The fields of a source that [format_source] copies, on either side. *)
Definition core (s : Source) : string * string * category * string * string * Q :=
  (url s, domain s, cat s, title s, text s, score s).

Definition f_core (f : FormattedSource)
    : string * string * category * string * string * Q :=
  (f_url f, f_domain f, f_category f, f_title f, f_text f, f_score f).

(** The query strings of the object, in the order in which they are run. *)
Definition all_queries (self : SourceFinder) : list string :=
  mjoin (snd <$> search_queries self).

(** [u] is the url of a hit that the search provider delivers for one of the
    queries of the object. *)
Definition provided_url (E : Env) (self : SourceFinder) (u : string) : Prop :=
  ∃ query hit r,
    query ∈ all_queries self ∧ hit ∈ (ddgs_text E query 15).1 ∧
    hit_of hit = Some r ∧ r_url r = u.

(** The collaborators [E] with another behaviour of the snapshot writer. *)
Definition with_write_snapshot (E : Env) (w : scraped_data → option exn) : Env :=
  {| read_json := read_json E;
     ddgs_text := ddgs_text E;
     fetch_url := fetch_url E;
     trafilatura_extract := trafilatura_extract E;
     finishes_in_time := finishes_in_time E;
     write_snapshot := w;
     now_isoformat := now_isoformat E |}.

(** A source as [find_sources] accepts it and the pairing passes it on. *)
Definition accepted (f : FormattedSource) : Prop :=
  (0.35 <= f_score f)%Q ∧ 400 ≤ String.length (f_text f) ≤ 1000 ∧
  f_category f ≠ unknown.

(** Two reliable sources, no unreliable one, one unknown: too few for
    either set to be full. *)
Definition scarce_sources : list Source :=
  [ demo_source "http://example.org/1" reliable;
    demo_source "http://example.org/2" reliable;
    demo_source "http://elsewhere.com/1" unknown ].

(** A hit that carries its address under several keys. *)
Definition mixed_hits : list raw_result :=
  [ {| href := Some ""; link := Some "http://example.org/l"; raw_url := Some "http://example.org/u";
       raw_title := None; body := None |};
    {| href := None; link := None; raw_url := Some ""; raw_title := Some "no address"; body := None |};
    demo_hit "http://example.org/h" ].

(** The search delivers [mixed_hits] and then fails. *)
Definition env_mixed : Env :=
  mk_env (Ret demo_config) (λ _ _, (mixed_hits, Some RuntimeError)) demo_page.

(** The configuration file is missing. *)
Definition env_no_config : Env :=
  mk_env (Raise FileNotFoundError)
    (λ _ _, ([demo_hit "http://www.example.org/a"], None)) demo_page.

(** A source as [find_sources] collects it. *)
Definition accepted_source (s : Source) : Prop :=
  (0.35 <= score s)%Q ∧ 400 ≤ String.length (text s) ≤ 1000.

(** [s] is empty or starts with a character outside [p]. *)
Definition clean_start (p : ascii → bool) (s : string) : Prop :=
  match s with
  | EmptyString => True
  | String c _ => p c = false
  end.

(** * Properties *)

(** ** The error monad *)

Lemma bind_Ret {A B} (a : A) (k : A → outcome B) : (Ret a ≫= k) = k a.
Proof. reflexivity. Qed.

Lemma bind_Raise {A B} (e : exn) (k : A → outcome B) : (Raise e ≫= k) = Raise e.
Proof. reflexivity. Qed.

Lemma Ret_inj {A} (a b : A) : Ret a = Ret b → a = b.
Proof. by intros [= ->]. Qed.

Lemma bind_Ret_inv {A B} (m : outcome A) (k : A → outcome B) b :
  (m ≫= k) = Ret b → ∃ a, m = Ret a ∧ k a = Ret b.
Proof. destruct m as [a|e]; [eauto | done]. Qed.

(** ** Strings *)

Section string_facts.
Implicit Types (p s a b : string).

Lemma app_nil_l s : "" +:+ s = s.
Proof. reflexivity. Qed.

Lemma app_cons (c : ascii) a b : String c a +:+ b = String c (a +:+ b).
Proof. reflexivity. Qed.

Lemma app_nil_r s : s +:+ "" = s.
Proof.
  induction s as [|c s IH]; [done |].
  by rewrite app_cons, IH.
Qed.

Lemma app_assoc_str a b c : (a +:+ b) +:+ c = a +:+ (b +:+ c).
Proof.
  induction a as [|x a IH]; [done |].
  by rewrite !app_cons, IH.
Qed.

Lemma lower_app a b : lower (a +:+ b) = lower a +:+ lower b.
Proof.
  induction a as [|c a IH]; [done |].
  rewrite app_cons. simpl. by rewrite IH, app_cons.
Qed.

Lemma startswith_spec p s : startswith p s = true ↔ ∃ r, s = p +:+ r.
Proof.
  revert s. induction p as [|c p IH]; intros s; simpl.
  - split; [eauto | done].
  - destruct s as [|d s].
    + split; [done | intros [r Hr]; discriminate].
    + rewrite andb_true_iff, bool_decide_eq_true, IH. split.
      * intros [-> [r ->]]. eauto.
      * intros [r Hr]. injection Hr as -> ->. eauto.
Qed.

Lemma contains_spec p s : contains p s = true ↔ ∃ a b, s = a +:+ p +:+ b.
Proof.
  induction s as [|c s IH].
  - cbn [contains]. rewrite orb_false_r, startswith_spec. split.
    + intros [r ->]. by exists "", r.
    + intros (a & b & H). destruct a; simpl in H; [eauto | discriminate].
  - cbn [contains]. rewrite orb_true_iff, startswith_spec, IH. split.
    + intros [[r ->] | (a & b & ->)]; [by exists "", r | by exists (String c a), b].
    + intros (a & b & H). destruct a as [|d a]; simpl in H.
      * left; eauto.
      * injection H as -> ->. right; eauto.
Qed.

Lemma contains_app p s a b :
  contains p s = true → contains p (a +:+ s +:+ b) = true.
Proof.
  rewrite !contains_spec. intros (x & y & ->).
  exists (a +:+ x), (y +:+ b). by rewrite !app_assoc_str.
Qed.

Lemma contains_self_app p a b : contains p (a +:+ p +:+ b) = true.
Proof. apply contains_spec; eauto. Qed.

Lemma endswith_spec p s : endswith p s = true ↔ ∃ a, s = a +:+ p.
Proof.
  induction s as [|c s IH]; cbn [endswith].
  - rewrite orb_false_r, bool_decide_eq_true. split.
    + intros <-. by exists "".
    + intros [a H]. destruct a; simpl in H; [done | discriminate].
  - rewrite orb_true_iff, bool_decide_eq_true, IH. split.
    + intros [<- | [a ->]]; [by exists "" | by exists (String c a)].
    + intros [a H]. destruct a as [|d a]; simpl in H; [by left |].
      injection H as -> ->. right; eauto.
Qed.

Lemma str_take_length n s : String.length (str_take n s) ≤ n.
Proof.
  revert s. induction n as [|n IH]; intros [|c s]; simpl; try lia.
  specialize (IH s). lia.
Qed.
End string_facts.

(** ** The relevance scorer *)

Section scorer_facts.
Implicit Types (kws : list string) (t : string).

Lemma count_hits_le kws t : count_hits kws t ≤ length kws.
Proof. apply length_filter. Qed.

Lemma count_hits_mono kws t t' :
  (∀ k, contains k t = true → contains k t' = true) →
  count_hits kws t ≤ count_hits kws t'.
Proof.
  intros Hsub. unfold count_hits.
  induction kws as [|k kws IH]; [done |].
  rewrite !filter_cons.
  destruct (decide (contains k t = true)) as [Hk|Hk].
  - rewrite decide_True by auto. simpl. lia.
  - case_decide; simpl; lia.
Qed.

Lemma true_div_total a b : b ≠ 0 → ∃ q, true_div a b = Ret q.
Proof. destruct b; [done | eauto]. Qed.

Lemma true_div_range a b q :
  a ≤ b → true_div a b = Ret q → (0 <= q <= 1)%Q.
Proof.
  intros Hab. destruct b as [|b]; [done |].
  intros [= <-].
  assert (0 < inject_Z (Z.of_nat (S b)))%Q as Hpos.
  { change 0%Q with (inject_Z 0). rewrite <-Zlt_Qlt. lia. }
  split.
  - apply Qle_shift_div_l; [done |].
    rewrite Qmult_0_l. change 0%Q with (inject_Z 0). rewrite <-Zle_Qle. lia.
  - apply Qle_shift_div_r; [done |].
    rewrite Qmult_1_l. rewrite <-Zle_Qle. lia.
Qed.

Lemma true_div_mono a a' b q q' :
  a ≤ a' → true_div a b = Ret q → true_div a' b = Ret q' → (q <= q')%Q.
Proof.
  intros Ha. destruct b as [|b]; [done |].
  intros [= <-] [= <-].
  apply Qmult_le_compat_r.
  - rewrite <-Zle_Qle. lia.
  - apply Qinv_le_0_compat. change 0%Q with (inject_Z 0). rewrite <-Zle_Qle. lia.
Qed.

Lemma keyword_hit_rate_total kws t :
  kws ≠ [] → ∃ h, keyword_hit_rate kws t = Ret h ∧ (0 <= h <= 1)%Q.
Proof.
  intros Hne. unfold keyword_hit_rate.
  destruct (true_div_total (count_hits kws (lower t)) (length kws)) as [h Hh].
  { by destruct kws. }
  exists h. split; [done |].
  eapply true_div_range; [apply count_hits_le | done].
Qed.
End scorer_facts.

(** C6. Provided the similarity ratio of the library is a percentage, the
    score of every query and text is returned and lies between 0 and 1; for a
    non-empty keyword list it is 0.6 times the keyword hit rate plus 0.4
    times the similarity ratio divided by 100. *)
Theorem relevance_score_range (L : Libs) (self : SourceFinder) (query text : string) :
  (∀ a b, 0 <= token_set_ratio L a b <= 100)%Q →
  ∃ v, _compute_relevance_score L self query text = Ret v ∧
       (0 <= v <= 1)%Q ∧
       (_extract_keywords self query ≠ [] →
        ∃ h, keyword_hit_rate (_extract_keywords self query) text = Ret h ∧
             v = (0.6 * h + 0.4 * (token_set_ratio L query (str_take 5000 text) / 100))%Q).
Proof.
  intros Hratio. unfold _compute_relevance_score.
  destruct (_extract_keywords self query) as [|k kws] eqn:Hk.
  - exists 0%Q. split; [done |]. split; [lra | done].
  - destruct (keyword_hit_rate_total (k :: kws) text) as (h & Hh & Hrange); [done |].
    rewrite Hh. cbn.
    eexists; split; [done |]. split.
    + unfold fuzzy_score.
      specialize (Hratio query (str_take 5000 text)).
      set (r := token_set_ratio L query (str_take 5000 text)) in *.
      assert (r / 100 == r * (1 # 100))%Q as -> by (unfold Qdiv; reflexivity).
      lra.
    + intros _. exists h. done.
Qed.

Section tokenizer_facts.
Lemma lower_char_not_upper c : not_upper (lower_char c) = true.
Proof. destruct c as [[] [] [] [] [] [] [] []]; reflexivity. Qed.

Lemma lower_not_upper t : str_forall not_upper (lower t) = true.
Proof.
  induction t as [|c t IH]; [done |].
  simpl. by rewrite lower_char_not_upper, IH.
Qed.

Lemma word_runs_forall p s :
  str_forall p s = true → Forall (λ r, str_forall p r = true) (word_runs s).
Proof.
  induction s as [|c s IH]; [constructor |].
  cbn [str_forall word_runs]. intros [Hc Hs]%andb_true_iff.
  specialize (IH Hs).
  destruct (is_word_char c); [| done].
  destruct s as [|d s'].
  - constructor; [| done]. simpl. by rewrite Hc.
  - destruct (word_runs (String d s')) as [|r rs].
    + constructor; [| done]. simpl. by rewrite Hc.
    + apply Forall_cons in IH as [Hr Hrs].
      destruct (is_word_char d).
      * constructor; [| done]. simpl. by rewrite Hc, Hr.
      * constructor; [simpl; by rewrite Hc |]. by constructor.
Qed.

Lemma letter_not_upper_lower c :
  is_ascii_letter c = true → not_upper c = true → is_lower_letter c = true.
Proof.
  unfold is_ascii_letter, not_upper, is_lower_letter.
  destruct (within 65 90 (code c)); [done |]. by rewrite orb_false_l.
Qed.

Lemma str_forall_lower_letter r :
  str_forall is_ascii_letter r = true → str_forall not_upper r = true →
  str_forall is_lower_letter r = true.
Proof.
  induction r as [|c r IH]; [done |].
  simpl. intros [H1 H2]%andb_true_iff [H3 H4]%andb_true_iff.
  by rewrite letter_not_upper_lower, IH.
Qed.

Lemma extract_keywords_words self query :
  Forall (λ w, str_forall is_lower_letter w = true ∧
               2 < String.length w ∧ w ∉ stopwords self)
         (_extract_keywords self query).
Proof.
  unfold _extract_keywords, findall_words.
  apply Forall_forall. intros w Hw.
  apply list_elem_of_filter in Hw as [[Hstop Hlen] Hw].
  apply list_elem_of_filter in Hw as [Hletters Hw].
  split; [| done].
  apply str_forall_lower_letter; [done |].
  pose proof (word_runs_forall not_upper _ (lower_not_upper query)) as Hall.
  by eapply Forall_forall in Hall.
Qed.
End tokenizer_facts.

(** C7. The keywords of a query are words of lower-case letters, longer than
    two characters, that are not stop words; when there are none the score
    is 0 for every text, and the scorer never raises [ZeroDivisionError]. *)
Theorem empty_keywords_score_zero (L : Libs) (self : SourceFinder) (query text : string) :
  Forall (λ w, str_forall is_lower_letter w = true ∧
               2 < String.length w ∧ w ∉ stopwords self)
         (_extract_keywords self query) ∧
  (_extract_keywords self query = [] →
   _compute_relevance_score L self query text = Ret 0%Q) ∧
  _compute_relevance_score L self query text ≠ Raise ZeroDivisionError.
Proof.
  split; [apply extract_keywords_words |].
  unfold _compute_relevance_score.
  destruct (_extract_keywords self query) as [|k kws] eqn:Hk.
  - split; [done | discriminate].
  - split; [discriminate |].
    destruct (keyword_hit_rate_total (k :: kws) text) as (h & -> & _); [done |].
    discriminate.
Qed.

(** Putting an occurrence of a keyword after or before the text, behind any
    separator, does not decrease the keyword hit rate. *)
Lemma hit_rate_append_prepend (self : SourceFinder) (query text kw sep : string) :
  kw ∈ _extract_keywords self query →
  ∃ h h1 h2,
    keyword_hit_rate (_extract_keywords self query) text = Ret h ∧
    keyword_hit_rate (_extract_keywords self query) (text +:+ sep +:+ kw) = Ret h1 ∧
    keyword_hit_rate (_extract_keywords self query) (kw +:+ sep +:+ text) = Ret h2 ∧
    (h <= h1)%Q ∧ (h <= h2)%Q.
Proof.
  intros Hkw.
  set (kws := _extract_keywords self query) in *.
  assert (kws ≠ []) as Hne by (intros Heq; rewrite Heq in Hkw; by apply elem_of_nil in Hkw).
  destruct (keyword_hit_rate_total kws text Hne) as (h & Hh & _).
  destruct (keyword_hit_rate_total kws (text +:+ sep +:+ kw) Hne) as (h1 & Hh1 & _).
  destruct (keyword_hit_rate_total kws (kw +:+ sep +:+ text) Hne) as (h2 & Hh2 & _).
  exists h, h1, h2. repeat split; try done.
  - eapply true_div_mono; [| exact Hh | exact Hh1].
    apply count_hits_mono. intros k Hk.
    rewrite lower_app. apply (contains_app k (lower text) "" _ Hk).
  - eapply true_div_mono; [| exact Hh | exact Hh2].
    apply count_hits_mono. intros k Hk.
    rewrite <-app_assoc_str, lower_app.
    rewrite <-(app_nil_r (lower text)).
    apply (contains_app k (lower text) _ "" Hk).
Qed.

Section insertion_facts.
Implicit Types (x y a b k pre post : string) (p : ascii → bool).














End insertion_facts.


(** ** The shuffle *)

Section shuffle_facts.
Context {A : Type}.
Implicit Types (x : list A) (tape : list nat).

Lemma swap_perm x i j : swap x i j ≡ₚ x.
Proof.
  unfold swap.
  destruct (x !! j) as [xj|] eqn:Hj; [|done].
  destruct (x !! i) as [xi|] eqn:Hi; [|done].
  by apply Permutation_insert_swap.
Qed.

Lemma shuffle_from_perm i x tape : (shuffle_from i x tape).1 ≡ₚ x.
Proof.
  revert x tape. induction i as [|i IH]; intros x tape; [done |].
  cbn [shuffle_from]. unfold randbelow.
  rewrite IH. apply swap_perm.
Qed.

Lemma shuffle_perm x tape : (shuffle x tape).1 ≡ₚ x.
Proof. apply shuffle_from_perm. Qed.
End shuffle_facts.

(** ** The pairing *)

Section pairing_facts.
Variable E : Env.
Implicit Types (l rs us : list Source) (t : nat).

Lemma format_all_url t l : f_url <$> format_all E t l = url <$> l.
Proof. revert t. induction l as [|s l IH]; intros t; simpl; [done | by rewrite IH]. Qed.

Lemma format_all_category t l : f_category <$> format_all E t l = cat <$> l.
Proof. revert t. induction l as [|s l IH]; intros t; simpl; [done | by rewrite IH]. Qed.

Lemma format_all_text t l : f_text <$> format_all E t l = text <$> l.
Proof. revert t. induction l as [|s l IH]; intros t; simpl; [done | by rewrite IH]. Qed.

(** [_create_paired_sets] never raises, and its result is given by fixed
    slices of two permutations of the reliable and the unreliable sources. *)
Lemma create_paired_sets_slices sources tape t :
  ∃ rs us,
    rs ≡ₚ filter (λ s, cat s = reliable) sources ∧
    us ≡ₚ filter (λ s, cat s = unreliable) sources ∧
    _create_paired_sets E sources tape t =
      Ret {| clear_set := format_all E t (clear_of rs us);
             unclear_set :=
               format_all E (t + length (clear_of rs us)) (unclear_of rs us) |}.
Proof.
  unfold _create_paired_sets.
  pose proof (shuffle_perm (filter (λ s, cat s = reliable) sources) tape) as Hr.
  destruct (shuffle (filter (λ s, cat s = reliable) sources) tape) as [rs tape1].
  pose proof (shuffle_perm (filter (λ s, cat s = unreliable) sources) tape1) as Hu.
  destruct (shuffle (filter (λ s, cat s = unreliable) sources) tape1) as [us tape2].
  exists rs, us. split; [done |]. split; [done |].
  unfold clear_of, unclear_of.
  destruct rs as [|r0 [|r1 [|r2 [|r3 [|r4 rs]]]]];
    destruct us as [|u0 [|u1 [|u2 [|u3 us]]]]; reflexivity.
Qed.

Lemma filter_known_perm l :
  filter (λ s, cat s ≠ unknown) l ≡ₚ
  filter (λ s, cat s = reliable) l ++ filter (λ s, cat s = unreliable) l.
Proof.
  induction l as [|s l IH]; [done |].
  rewrite !filter_cons.
  destruct (cat s) eqn:Hc; repeat case_decide; try done.
  - simpl. by rewrite IH.
  - rewrite IH. apply Permutation_middle.
Qed.

Lemma slices_disjoint rs us :
  NoDup (url <$> (rs ++ us)) →
  ∀ u, u ∈ url <$> clear_of rs us → u ∉ url <$> unclear_of rs us.
Proof.
  intros Hnd u Hc Hu.
  assert (rs ++ us ≡ₚ clear_of rs us ++ (drop 4 rs ++ drop 1 us)) as Hp.
  { unfold clear_of.
    rewrite <-(take_drop 4 rs) at 1. rewrite <-(take_drop 1 us) at 1.
    rewrite <-!(assoc_L (++)). f_equiv.
    rewrite !(assoc_L (++)). f_equiv. apply Permutation_app_comm. }
  rewrite Hp, fmap_app in Hnd.
  apply NoDup_app in Hnd as (_ & Hdisj & _).
  apply (Hdisj u Hc).
  unfold unclear_of in Hu.
  rewrite fmap_app in Hu |- *. rewrite !elem_of_app in Hu |- *.
  destruct Hu as [Hu | Hu]; [left | right];
    apply list_elem_of_fmap in Hu as (s & -> & Hs);
    apply list_elem_of_fmap; exists s; split; try done;
    by eapply subseteq_take.
Qed.

Lemma slices_categories rs us :
  Forall (λ s, cat s = reliable) rs → Forall (λ s, cat s = unreliable) us →
  5 ≤ length rs → 4 ≤ length us →
  cat <$> clear_of rs us = [reliable; reliable; reliable; reliable; unreliable] ∧
  cat <$> unclear_of rs us = [reliable; unreliable; unreliable; unreliable].
Proof.
  intros Hrs Hus Hlr Hlu.
  destruct rs as [|r0 [|r1 [|r2 [|r3 [|r4 rs]]]]]; simpl in Hlr; try lia.
  destruct us as [|u0 [|u1 [|u2 [|u3 us]]]]; simpl in Hlu; try lia.
  repeat match goal with
         | H : Forall _ (_ :: _) |- _ => apply Forall_cons in H as [? H]
         end.
  unfold clear_of, unclear_of. simpl. split; congruence.
Qed.
End pairing_facts.

(** C2 (as amended). Whenever no two sources of category reliable or
    unreliable in the input share a url, the pairing returns, and no url of
    its clear set occurs in its unclear set, whatever the numbers of
    reliable, unreliable and unknown sources and whatever the shuffles. *)
Theorem paired_sets_disjoint (E : Env) (sources : list Source) (tape : list nat) (t : nat) :
  NoDup (url <$> filter (λ s, cat s ≠ unknown) sources) →
  ∃ r, _create_paired_sets E sources tape t = Ret r ∧
       ∀ u, u ∈ f_url <$> clear_set r → u ∉ f_url <$> unclear_set r.
Proof.
  intros Hnd.
  destruct (create_paired_sets_slices E sources tape t) as (rs & us & Hr & Hu & ->).
  eexists; split; [done |]. simpl. rewrite !format_all_url.
  apply slices_disjoint.
  by rewrite Hr, Hu, <-filter_known_perm.
Qed.

(** C1 (as amended). With at least 6 reliable and at least 5 unreliable
    sources, and any number of unknown ones, the pairing returns a clear set
    of 4 reliable sources followed by 1 unreliable source and an unclear set
    of 1 reliable source followed by 3 unreliable sources; and when no two
    reliable or unreliable sources of the input share a url, no url is in
    both sets. *)
Theorem paired_sets_full_pools (E : Env) (sources : list Source) (tape : list nat) (t : nat) :
  6 ≤ count_category reliable sources →
  5 ≤ count_category unreliable sources →
  ∃ r, _create_paired_sets E sources tape t = Ret r ∧
       length (clear_set r) = 5 ∧ length (unclear_set r) = 4 ∧
       f_category <$> clear_set r =
         [reliable; reliable; reliable; reliable; unreliable] ∧
       f_category <$> unclear_set r =
         [reliable; unreliable; unreliable; unreliable] ∧
       (NoDup (url <$> filter (λ s, cat s ≠ unknown) sources) →
        ∀ u, u ∈ f_url <$> clear_set r → u ∉ f_url <$> unclear_set r).
Proof.
  unfold count_category. intros Hr6 Hu5.
  destruct (create_paired_sets_slices E sources tape t) as (rs & us & Hr & Hu & Heq).
  assert (Forall (λ s, cat s = reliable) rs) as Hfr.
  { rewrite Hr. apply Forall_forall. intros s Hs. by apply list_elem_of_filter in Hs as [? _]. }
  assert (Forall (λ s, cat s = unreliable) us) as Hfu.
  { rewrite Hu. apply Forall_forall. intros s Hs. by apply list_elem_of_filter in Hs as [? _]. }
  destruct (slices_categories rs us Hfr Hfu) as [Hc1 Hc2].
  { rewrite Hr. lia. }
  { rewrite Hu. lia. }
  eexists; split; [exact Heq |]. simpl.
  rewrite !format_all_category.
  split; [by rewrite <-(length_fmap f_category), format_all_category, Hc1 |].
  split; [by rewrite <-(length_fmap f_category), format_all_category, Hc2 |].
  split; [done |]. split; [done |].
  intros Hnd. rewrite !format_all_url. apply slices_disjoint.
  by rewrite Hr, Hu, <-filter_known_perm.
Qed.

(** ** The classifier *)

Section classifier_facts.
Implicit Types (d e s : string) (table : gset entry).

Lemma replace_www_cons (c : ascii) s :
  replace_www (String c s) =
    if startswith "www." (String c s) then replace_www (str_drop 3 s)
    else String c (replace_www s).
Proof.
  destruct c as [[] [] [] [] [] [] [] []]; try reflexivity.
  destruct s as [|c2 s]; [reflexivity |].
  destruct c2 as [[] [] [] [] [] [] [] []]; try reflexivity.
  destruct s as [|c3 s]; [reflexivity |].
  destruct c3 as [[] [] [] [] [] [] [] []]; try reflexivity.
  destruct s as [|c4 s]; [reflexivity |].
  destruct c4 as [[] [] [] [] [] [] [] []]; reflexivity.
Qed.

Lemma replace_www_id d : contains "www." d = false → replace_www d = d.
Proof.
  induction d as [|c d IH]; [done |].
  cbn [contains]. intros [Hs Hc]%orb_false_iff.
  rewrite replace_www_cons, Hs. by rewrite IH.
Qed.

Lemma replace_www_leading d :
  contains "www." d = false → replace_www ("www." +:+ d) = d.
Proof. intros Hd. change (replace_www d = d). by apply replace_www_id. Qed.

Lemma domain_matches_spec d e : domain_matches d e = true ↔ dot_match d e.
Proof.
  unfold domain_matches, dot_match.
  rewrite orb_true_iff, bool_decide_eq_true, endswith_spec. done.
Qed.

Lemma elem_of_set_iter L table (x : entry) : x ∈ set_iter L table ↔ x ∈ table.
Proof. rewrite (set_iter_perm L table). apply elem_of_elements. Qed.

Lemma any_match_raises d (l : list entry) (x : exn) :
  any_match d l = Raise x → x = TypeError.
Proof.
  induction l as [|[s| |] l IH]; cbn; try congruence.
  destruct (domain_matches d s); [done | exact IH].
Qed.

Lemma any_match_mono d d' (l : list entry) :
  (∀ e, domain_matches d e = true → domain_matches d' e = true) →
  any_match d l = Ret true → any_match d' l = Ret true.
Proof.
  intros Hm. induction l as [|[s| |] l IH]; cbn; try done.
  destruct (domain_matches d s) eqn:Hs.
  - by rewrite (Hm _ Hs).
  - intros H. destruct (domain_matches d' s); [done | by apply IH].
Qed.

Lemma any_match_strings d (l : list entry) :
  (∀ x, x ∈ l → ∃ s, x = EStr s) →
  ∃ b, any_match d l = Ret b ∧ (b = true ↔ ∃ e, EStr e ∈ l ∧ dot_match d e).
Proof.
  induction l as [|x l IH]; intros Hstr.
  - exists false. split; [done |]. split; [done |].
    by intros (e & []%elem_of_nil & _).
  - destruct (Hstr x) as [s ->]; [left |]. cbn.
    destruct (domain_matches d s) eqn:Hs.
    + exists true. split; [done |]. split; [| done]. intros _.
      exists s. split; [left | by apply domain_matches_spec].
    + destruct IH as (b & Hb & Hiff); [intros y Hy; apply Hstr; by right |].
      exists b. split; [done |]. rewrite Hiff. split.
      * intros (e & He & Hm). exists e. split; [by right | done].
      * intros (e & He & Hm). apply elem_of_cons in He as [[= <-] | He].
        -- apply domain_matches_spec in Hm. congruence.
        -- eauto.
Qed.

Lemma any_match_spec L d table :
  str_table table →
  ∃ b, any_match d (set_iter L table) = Ret b ∧
       (b = true ↔ ∃ e, EStr e ∈ table ∧ dot_match d e).
Proof.
  intros Hstr.
  destruct (any_match_strings d (set_iter L table)) as (b & Hb & Hiff).
  { intros x Hx. apply Hstr. by apply elem_of_set_iter in Hx. }
  exists b. split; [done |]. rewrite Hiff.
  split; intros (e & He & Hm); exists e; (split; [by apply elem_of_set_iter in He | done])
    || (split; [by apply elem_of_set_iter | done]).
Qed.

Lemma classify_domain_total L self url : ∃ c, _classify_domain L self url = Ret c.
Proof.
  unfold _classify_domain, try_except, try_catch.
  destruct (urlparse_netloc L url) as [n|x] eqn:Hn.
  - rewrite bind_Ret. cbn zeta.
    destruct (any_match _ (set_iter L (reliable_domains self))) as [[]|x] eqn:Hr.
    + rewrite bind_Ret. eauto.
    + rewrite bind_Ret.
      destruct (any_match _ (set_iter L (unreliable_domains self))) as [[]|x] eqn:Hu.
      * rewrite bind_Ret. eauto.
      * rewrite bind_Ret. eauto.
      * apply any_match_raises in Hu as ->. rewrite bind_Raise. eauto.
    + apply any_match_raises in Hr as ->. rewrite bind_Raise. eauto.
  - assert (x = ValueError) as ->.
    { unfold urlparse_netloc in Hn. repeat case_match; congruence. }
    rewrite bind_Raise. eauto.
Qed.
End classifier_facts.

(** What the classifier computes on tables of domain names.  A URL that
    cannot be parsed is unknown.  Otherwise let [d] be the lower-cased
    network location of the URL (the host together with any user information
    and port) without its leading ["www."], for a location that holds
    ["www."] nowhere else: the URL is reliable when [d] equals an entry of
    the reliable table or ends with a dot followed by it; failing that,
    unreliable when the same holds for the unreliable table; and unknown
    when neither table matches. *)
Lemma classify_domain_dot_anchored (L : Libs) (self : SourceFinder) (url : string) :
  str_table (reliable_domains self) →
  str_table (unreliable_domains self) →
  (∀ e, urlparse_netloc L url = Raise e → _classify_domain L self url = Ret unknown) ∧
  (∀ n d,
     urlparse_netloc L url = Ret n →
     lower n = d ∨ lower n = "www." +:+ d →
     contains "www." d = false →
     ((∃ e, EStr e ∈ reliable_domains self ∧ dot_match d e) →
      _classify_domain L self url = Ret reliable) ∧
     (¬ (∃ e, EStr e ∈ reliable_domains self ∧ dot_match d e) →
      (∃ e, EStr e ∈ unreliable_domains self ∧ dot_match d e) →
      _classify_domain L self url = Ret unreliable) ∧
     (¬ (∃ e, EStr e ∈ reliable_domains self ∧ dot_match d e) →
      ¬ (∃ e, EStr e ∈ unreliable_domains self ∧ dot_match d e) →
      _classify_domain L self url = Ret unknown)).
Proof.
  intros Hsr Hsu. split.
  - intros e He. unfold _classify_domain. rewrite He.
    assert (e = ValueError) as ->.
    { unfold urlparse_netloc in He. repeat case_match; congruence. }
    reflexivity.
  - intros n d Hn Hd Hwww. unfold _classify_domain. rewrite Hn, bind_Ret. cbn zeta.
    assert (replace_www (lower n) = d) as ->.
    { destruct Hd as [-> | ->]; [by apply replace_www_id | by apply replace_www_leading]. }
    destruct (any_match_spec L d _ Hsr) as (br & -> & Hr).
    destruct (any_match_spec L d _ Hsu) as (bu & -> & Hu).
    rewrite <-Hr, <-Hu.
    destruct br, bu; cbn; repeat split; congruence.
Qed.

(** The second example of the specification: a host that merely starts with
    a trusted name is not reliable. *)
Example classify_evil_suffix :
  _classify_domain demo_libs demo_self "http://example.org.evil.com" = Ret unknown.
Proof. vm_compute. reflexivity. Qed.

(** C5. The classifier removes ["www."] wherever it occurs and compares the
    network location, not the host.  With [example.org] in the reliable
    table, [http://exawww.mple.org/a] is classified reliable although its
    host neither equals [example.org] nor ends with [.example.org]; the
    subdomain [notwww.example.org] of the reliable domain, and the reliable
    domain itself given with a port, are classified unknown.  By the rule of
    the specification the first is unknown and the other two are
    reliable. *)
Theorem classify_domain_removes_inner_www :
  (_classify_domain demo_libs demo_self "http://exawww.mple.org/a" = Ret reliable ∧
   spec_classify demo_libs demo_self "http://exawww.mple.org/a" = unknown) ∧
  (_classify_domain demo_libs demo_self "http://notwww.example.org/a" = Ret unknown ∧
   spec_classify demo_libs demo_self "http://notwww.example.org/a" = reliable) ∧
  (_classify_domain demo_libs demo_self "http://example.org:8080/a" = Ret unknown ∧
   spec_classify demo_libs demo_self "http://example.org:8080/a" = reliable).
Proof. vm_compute. repeat split. Qed.

(** ** The trust-table loader *)

(** C9 (as amended). When reading the configuration raises
    [FileNotFoundError] or [JSONDecodeError], the loader returns with both
    trust sets empty and one diagnostic line printed; any other exception of
    the read is raised to the caller. *)
Theorem load_domain_config_recovers (E : Env) (self : SourceFinder) (e : exn) :
  read_json E (domain_trust_config_path self) = Raise e →
  (e = FileNotFoundError →
   _load_domain_config E self =
     Ret (set_domains self ∅ ∅,
          ["Warning: " +:+ domain_trust_config_path self +:+
           " not found, using empty domain lists"])) ∧
  (e = JSONDecodeError →
   _load_domain_config E self =
     Ret (set_domains self ∅ ∅,
          ["Error: Invalid JSON in " +:+ domain_trust_config_path self])) ∧
  (e ≠ FileNotFoundError → e ≠ JSONDecodeError →
   _load_domain_config E self = Raise e).
Proof.
  intros Hread. unfold _load_domain_config, load_body. rewrite Hread. cbn.
  repeat split.
  - by intros ->.
  - by intros ->.
  - intros H1 H2. by destruct e.
Qed.

Lemma load_domain_config_recovers_witness :
  _load_domain_config (mk_env (Raise JSONDecodeError) (λ _ _, ([], None)) "") demo_self =
    Ret (set_domains demo_self ∅ ∅, ["Error: Invalid JSON in domain_trust_config.json"]).
Proof.
  exact (proj1 (proj2 (load_domain_config_recovers
                         (mk_env (Raise JSONDecodeError) (λ _ _, ([], None)) "")
                         demo_self JSONDecodeError eq_refl)) eq_refl).
Defined.

(** C9 as stated fails: a configuration file that may not be read, and one
    that holds a JSON array, make the loader raise. *)
Lemma load_domain_config_counterexample :
  (read_json env_denied (domain_trust_config_path demo_self) = Raise PermissionError ∧
   _load_domain_config env_denied demo_self = Raise PermissionError) ∧
  (read_json env_array_config (domain_trust_config_path demo_self) = Ret ConfigOther ∧
   _load_domain_config env_array_config demo_self = Raise AttributeError).
Proof. repeat split. Qed.

(** A configuration that loads: the sections are united. *)
Example init_demo :
  init demo_libs demo_env "vaccine safety" "domain_trust_config.json" =
    Ret (demo_self, ["Domain config loaded (global): 1 reliable, 1 unreliable"]).
Proof. vm_compute. reflexivity. Qed.

(** ** The orchestrator *)

Section orchestrator_facts.
Variables (L : Libs) (E : Env) (self : SourceFinder).

Lemma for_each_inv {A S} (P : S → Prop) (body : S → A → outcome S) xs acc r :
  (∀ acc x acc', P acc → body acc x = Ret acc' → P acc') →
  P acc → for_each body xs acc = Ret r → P r.
Proof.
  intros Hbody. revert acc. induction xs as [|x xs IH]; intros acc Hacc Hrun.
  - by injection Hrun as <-.
  - cbn [for_each] in Hrun.
    apply bind_Ret_inv in Hrun as (acc' & Hstep & Hrest).
    eapply IH; [| exact Hrest]. eauto.
Qed.

Lemma truthy_long t : 400 ≤ String.length t → truthy t = true.
Proof. destruct t; simpl; [lia | done]. Qed.

(** What [_extract_text_from_url] returns, by the behaviour of the worker. *)
Lemma extract_text_cases url :
  _extract_text_from_url E url =
    match future_result E url with
    | Ret (Some t) => if 400 <=? String.length t then Ret (Some t) else Ret None
    | Ret None => Ret None
    | Raise e => if bool_decide (e = FuturesTimeout) then Ret None else Raise e
    end.
Proof.
  unfold _extract_text_from_url, try_catch.
  destruct (future_result E url) as [[t|]|e]; rewrite ?bind_Ret, ?bind_Raise.
  - destruct (400 <=? String.length t) eqn:Hlen.
    + apply Nat.leb_le in Hlen. by rewrite truthy_long.
    + by rewrite andb_false_r.
  - done.
  - by destruct (bool_decide (e = FuturesTimeout)).
Qed.

Lemma process_result_short acc result acc' :
  Forall short_text acc →
  process_result L E self acc result = Ret acc' → Forall short_text acc'.
Proof.
  intros Hacc Hres. unfold process_result in Hres.
  apply bind_Ret_inv in Hres as (ot & _ & Hres).
  destruct ot as [t|]; [| by injection Hres as <-].
  destruct (negb (truthy t)); [by injection Hres as <- |].
  apply bind_Ret_inv in Hres as (v & _ & Hres).
  destruct (Qlt_bool v 0.35); [by injection Hres as <- |].
  apply bind_Ret_inv in Hres as (c & _ & Hres).
  apply bind_Ret_inv in Hres as (n & _ & Hres).
  apply Ret_inj in Hres. subst acc'.
  apply Forall_app. split; [done |].
  constructor; [| done]. unfold short_text. cbn [text]. apply str_take_length.
Qed.

Lemma collect_sources_short all_sources :
  collect_sources L E self = Ret all_sources → Forall short_text all_sources.
Proof.
  unfold collect_sources.
  apply (for_each_inv (Forall short_text)); [| constructor].
  intros acc [source_type queries] acc' Hacc.
  apply (for_each_inv (Forall short_text)); [| done].
  clear. intros acc query acc' Hacc Hq. unfold process_query in Hq.
  apply bind_Ret_inv in Hq as (results & _ & Hq).
  revert Hq. apply (for_each_inv (Forall short_text)); [| done].
  intros ???. apply process_result_short.
Qed.

Lemma format_all_short t l :
  Forall short_text l →
  Forall (λ s, String.length (f_text s) ≤ 1000) (format_all E t l).
Proof.
  intros Hl. revert t. induction Hl as [|s l Hs Hl IH]; intros t; simpl; constructor; auto.
Qed.

Lemma slices_short sources rs us :
  Forall short_text sources →
  rs ≡ₚ filter (λ s, cat s = reliable) sources →
  us ≡ₚ filter (λ s, cat s = unreliable) sources →
  Forall short_text (clear_of rs us) ∧ Forall short_text (unclear_of rs us).
Proof.
  intros Hall Hr Hu.
  assert (Forall short_text rs) as Hrs.
  { rewrite Hr. apply Forall_forall. intros s Hs%list_elem_of_filter.
    rewrite Forall_forall in Hall. apply Hall, Hs. }
  assert (Forall short_text us) as Hus.
  { rewrite Hu. apply Forall_forall. intros s Hs%list_elem_of_filter.
    rewrite Forall_forall in Hall. apply Hall, Hs. }
  unfold clear_of, unclear_of. split; apply Forall_app; split;
    repeat first [apply Forall_take | apply Forall_drop]; done.
Qed.

Lemma find_sources_short tape r :
  find_sources L E self tape = Ret r →
  Forall (λ s, String.length (f_text s) ≤ 1000) (clear_set r) ∧
  Forall (λ s, String.length (f_text s) ≤ 1000) (unclear_set r).
Proof.
  unfold find_sources. intros Hrun.
  apply bind_Ret_inv in Hrun as (all_sources & Hall & Hrun).
  apply bind_Ret_inv in Hrun as (? & _ & Hrun).
  apply collect_sources_short in Hall.
  destruct (create_paired_sets_slices E all_sources tape 1) as (rs & us & Hr & Hu & Heq).
  rewrite Heq in Hrun. injection Hrun as <-.
  destruct (slices_short all_sources rs us Hall Hr Hu) as [Hc Hn].
  split; simpl; by apply format_all_short.
Qed.
End orchestrator_facts.

(** C10. Every source of the clear set and of the unclear set that [build]
    returns has a text of at most 1000 characters. *)
Theorem build_texts_truncated (L : Libs) (E : Env) (self : SourceFinder)
    (tape : list nat) (r : PairedResult) :
  build L E self tape = Ret r →
  Forall (λ s, String.length (f_text s) ≤ 1000) (clear_set r) ∧
  Forall (λ s, String.length (f_text s) ≤ 1000) (unclear_set r).
Proof.
  unfold build, try_except, try_catch. intros Hb.
  destruct (find_sources L E self tape) as [p|e] eqn:Hfind; cbn in Hb.
  - injection Hb as <-. simpl. by eapply find_sources_short.
  - destruct (is_Exception e); [| done].
    injection Hb as <-. split; constructor.
Qed.

Section acceptance_facts.
Variables (L : Libs) (E : Env) (self : SourceFinder).

Lemma Qlt_bool_false v : Qlt_bool v 0.35 = false ↔ (0.35 <= v)%Q.
Proof.
  unfold Qlt_bool. rewrite negb_false_iff. apply Qle_bool_iff.
Qed.

Lemma app_singleton_ne {A} (l : list A) x : l ++ [x] ≠ l.
Proof.
  intros Heq. apply (f_equal length) in Heq.
  rewrite length_app in Heq. simpl in Heq. lia.
Qed.

(** The loop body, by the behaviour of the worker and the score. *)
Lemma process_result_cases acc result n :
  urlparse_netloc L (r_url result) = Ret n →
  process_result L E self acc result =
    match future_result E (r_url result) with
    | Ret (Some t) =>
        if 400 <=? String.length t then
          match _compute_relevance_score L self (gold_query self) t with
          | Ret v =>
              if Qlt_bool v 0.35 then Ret acc
              else
                match _classify_domain L self (r_url result) with
                | Ret c =>
                    Ret (acc ++
                         [ {| url := r_url result;
                              domain := replace_www n;
                              cat := c;
                              score := v;
                              text := str_take 1000 t;
                              title := r_title result;
                              snippet := r_snippet result |} ])
                | Raise e => Raise e
                end
          | Raise e => Raise e
          end
        else Ret acc
    | Ret None => Ret acc
    | Raise e => if bool_decide (e = FuturesTimeout) then Ret acc else Raise e
    end.
Proof.
  intros Hn. unfold process_result. rewrite extract_text_cases.
  destruct (future_result E (r_url result)) as [[t|]|e]; [| done |].
  - destruct (400 <=? String.length t) eqn:Hlen; [| done].
    rewrite bind_Ret. apply Nat.leb_le in Hlen. rewrite truthy_long by done.
    cbn [negb].
    destruct (_compute_relevance_score L self (gold_query self) t) as [v|e]; [| done].
    rewrite bind_Ret. destruct (Qlt_bool v 0.35); [done |].
    destruct (_classify_domain L self (r_url result)) as [c|e]; [| done].
    by rewrite bind_Ret, Hn, bind_Ret.
  - by destruct (bool_decide (e = FuturesTimeout)).
Qed.
End acceptance_facts.

(** The acceptance rule on the results whose url [urlparse] accepts: such a
    result is appended to the collected sources exactly when the extraction
    worker returns a text in time, the text has at least 400 characters, and
    its score against the gold query is at least 0.35.  A text of 399
    characters is rejected; a text of 400 characters whose score is exactly
    0.35 is accepted. *)
Lemma acceptance_criterion (L : Libs) (E : Env) (self : SourceFinder)
    (all_sources : list Source) (result : search_result) (n : string) :
  urlparse_netloc L (r_url result) = Ret n →
  ((∃ s, process_result L E self all_sources result = Ret (all_sources ++ [s])) ↔
   (∃ t v, future_result E (r_url result) = Ret (Some t) ∧
           400 ≤ String.length t ∧
           _compute_relevance_score L self (gold_query self) t = Ret v ∧
           (0.35 <= v)%Q)) ∧
  (∀ t, future_result E (r_url result) = Ret (Some t) →
        String.length t = 399 →
        process_result L E self all_sources result = Ret all_sources) ∧
  (∀ t v, future_result E (r_url result) = Ret (Some t) →
          String.length t = 400 →
          _compute_relevance_score L self (gold_query self) t = Ret v →
          (v == 0.35)%Q →
          ∃ s, process_result L E self all_sources result = Ret (all_sources ++ [s]) ∧
               url s = r_url result ∧ text s = str_take 1000 t).
Proof.
  intros Hn. rewrite (process_result_cases L E self all_sources result n Hn).
  destruct (classify_domain_total L self (r_url result)) as [c Hc].
  split; [split |].
  - intros [s Hs].
    destruct (future_result E (r_url result)) as [[t|]|e].
    + destruct (400 <=? String.length t) eqn:Hlen.
      * apply Nat.leb_le in Hlen.
        destruct (_compute_relevance_score L self (gold_query self) t)
          as [v|e] eqn:Hscore; [| done].
        destruct (Qlt_bool v 0.35) eqn:Hv.
        -- apply Ret_inj in Hs. symmetry in Hs. by apply app_singleton_ne in Hs.
        -- apply Qlt_bool_false in Hv. by exists t, v.
      * apply Ret_inj in Hs. symmetry in Hs. by apply app_singleton_ne in Hs.
    + apply Ret_inj in Hs. symmetry in Hs. by apply app_singleton_ne in Hs.
    + destruct (bool_decide (e = FuturesTimeout)); [| done].
      apply Ret_inj in Hs. symmetry in Hs. by apply app_singleton_ne in Hs.
  - intros (t & v & -> & Hlen & -> & Hv).
    apply Nat.leb_le in Hlen. rewrite Hlen.
    apply Qlt_bool_false in Hv. rewrite Hv, Hc. eauto.
  - split.
    + intros t -> Hlen. by rewrite Hlen.
    + intros t v -> Hlen -> Hv. rewrite Hlen. cbn [Nat.leb].
      assert (Qlt_bool v 0.35 = false) as ->.
      { apply Qlt_bool_false. rewrite Hv. apply Qle_refl. }
      rewrite Hc. eauto.
Qed.

(** C3 (as amended). An exception of class [Exception] that [find_sources]
    raises makes [build] return the empty result, and [build] raises nothing
    of class [Exception].  A failure of the search provider, of the
    extraction worker or of the debug dump is handled where it occurs: the
    search wrapper returns the hits delivered so far, the worker returns
    nothing, the dump is skipped, and the run goes on. *)
Theorem build_fail_soft (L : Libs) (E : Env) (self : SourceFinder) (tape : list nat) :
  (∀ e, find_sources L E self tape = Raise e → is_Exception e = true →
        build L E self tape = Ret empty_result) ∧
  (∀ e, build L E self tape = Raise e → is_Exception e = false) ∧
  (∀ query max_results hits e,
     ddgs_text E query max_results = (hits, Some e) → is_Exception e = true →
     _search_duckduckgo E query max_results = Ret (omap hit_of hits)) ∧
  (∀ u e, fetch_url E u = Raise e → is_Exception e = true →
          _do_extract E u = Ret None) ∧
  (∀ all_sources e,
     write_snapshot E (scraped E self all_sources) = Some e →
     is_Exception e = true →
     dump_sources E self all_sources = Ret ()).
Proof.
  repeat split.
  - intros e Hf He. unfold build, try_except, try_catch.
    by rewrite Hf, bind_Raise, He.
  - intros e. unfold build, try_except, try_catch.
    destruct (find_sources L E self tape) as [p|e']; [done |].
    rewrite bind_Raise. destruct (is_Exception e') eqn:He'; [done |].
    by intros [= <-].
  - intros query max_results hits e Hd He. unfold _search_duckduckgo.
    rewrite Hd. unfold try_except, try_catch. by rewrite He.
  - intros u e Hf He. unfold _do_extract, try_except, try_catch.
    by rewrite Hf, bind_Raise, He.
  - intros all_sources e Hw He. unfold dump_sources, try_except, try_catch.
    by rewrite Hw, He.
Qed.

(** ** The statements at concrete inputs *)

Lemma paired_sets_disjoint_witness :
  NoDup (url <$> filter (λ s, cat s ≠ unknown) distinct_sources) ∧
  ∃ r, _create_paired_sets demo_env distinct_sources [3; 1; 4; 1; 5; 9; 2; 6] 1 = Ret r ∧
       ∀ u, u ∈ f_url <$> clear_set r → u ∉ f_url <$> unclear_set r.
Proof.
  assert (NoDup (url <$> filter (λ s, cat s ≠ unknown) distinct_sources)) as Hnd.
  { apply (bool_decide_unpack _). vm_compute. exact I. }
  split; [exact Hnd |].
  exact (paired_sets_disjoint demo_env distinct_sources [3; 1; 4; 1; 5; 9; 2; 6] 1 Hnd).
Defined.

(** C2 as stated fails: two unreliable sources with one url put that url in
    both sets, whatever the shuffle does. *)
Lemma paired_sets_disjoint_counterexample :
  ∃ r, _create_paired_sets demo_env twin_sources [] 1 = Ret r ∧
       f_url <$> clear_set r = ["http://rumor.net/b"] ∧
       f_url <$> unclear_set r = ["http://rumor.net/b"].
Proof. eexists. split; [vm_compute; reflexivity |]. split; reflexivity. Qed.

Lemma paired_sets_full_pools_witness :
  6 ≤ count_category reliable distinct_sources ∧
  5 ≤ count_category unreliable distinct_sources ∧
  ∃ r, _create_paired_sets demo_env distinct_sources [3; 1; 4; 1; 5; 9; 2; 6] 1 = Ret r ∧
       length (clear_set r) = 5 ∧ length (unclear_set r) = 4.
Proof.
  assert (6 ≤ count_category reliable distinct_sources) as H6 by (vm_compute; lia).
  assert (5 ≤ count_category unreliable distinct_sources) as H5 by (vm_compute; lia).
  split; [exact H6 |]. split; [exact H5 |].
  destruct (paired_sets_full_pools demo_env distinct_sources [3; 1; 4; 1; 5; 9; 2; 6] 1 H6 H5)
    as (r & Hr & Hc & Hu & _).
  exists r. auto.
Defined.

(** C1 as stated fails: with six reliable sources that share a url and five
    unreliable ones, the sets have the sizes and the make-up claimed, and
    the url of the reliable sources is in both. *)
Lemma paired_sets_full_pools_counterexample :
  6 ≤ count_category reliable repeated_sources ∧
  5 ≤ count_category unreliable repeated_sources ∧
  ∃ r, _create_paired_sets demo_env repeated_sources [] 1 = Ret r ∧
       (f_url <$> clear_set r) !! 0 = Some "http://www.example.org/a" ∧
       (f_url <$> unclear_set r) !! 0 = Some "http://www.example.org/a".
Proof.
  split; [vm_compute; lia |]. split; [vm_compute; lia |].
  eexists. split; [vm_compute; reflexivity |]. split; reflexivity.
Qed.

Lemma relevance_score_range_witness :
  (∀ a b, 0 <= token_set_ratio demo_libs a b <= 100)%Q ∧
  ∃ v, _compute_relevance_score demo_libs demo_self "vaccine safety" demo_page = Ret v ∧
       (0 <= v <= 1)%Q.
Proof.
  assert (∀ a b, 0 <= token_set_ratio demo_libs a b <= 100)%Q as Hratio.
  { intros a b. simpl. lra. }
  split; [exact Hratio |].
  destruct (relevance_score_range demo_libs demo_self "vaccine safety" demo_page Hratio)
    as (v & Hv & Hrange & _).
  exists v. auto.
Defined.

(** The score of the demo page: both keywords occur, the similarity is 0. *)
Example demo_page_score :
  _extract_keywords demo_self "the Vaccine safety of it" = ["vaccine"; "safety"] ∧
  ∃ v, _compute_relevance_score demo_libs demo_self "vaccine safety" demo_page = Ret v ∧
       (v == 0.6)%Q.
Proof. split; [vm_compute; reflexivity |]. eexists. split; [vm_compute; reflexivity | reflexivity]. Qed.

Lemma empty_keywords_score_zero_witness :
  _extract_keywords demo_self "is it ok, or no?" = [] ∧
  _compute_relevance_score demo_libs demo_self "is it ok, or no?" demo_page = Ret 0%Q.
Proof.
  assert (_extract_keywords demo_self "is it ok, or no?" = []) as Hk
    by (vm_compute; reflexivity).
  split; [exact Hk |].
  exact (proj1 (proj2 (empty_keywords_score_zero
                         demo_libs demo_self "is it ok, or no?" demo_page)) Hk).
Defined.



(** The hit rate rises from one half to one in this instance. *)
Example hit_rate_rises :
  keyword_hit_rate ["vaccine"; "safety"] "A vaccine." = Ret (1 / 2)%Q ∧
  keyword_hit_rate ["vaccine"; "safety"] "A vaccine. safety" = Ret (2 / 2)%Q.
Proof. split; reflexivity. Qed.

Lemma acceptance_criterion_witness :
  urlparse_netloc demo_libs "http://www.example.org/a" = Ret "www.example.org" ∧
  ∃ s, process_result demo_libs demo_env demo_self []
         (demo_result "http://www.example.org/a") = Ret ([] ++ [s]).
Proof.
  assert (urlparse_netloc demo_libs "http://www.example.org/a" = Ret "www.example.org")
    as Hn by reflexivity.
  split; [exact Hn |].
  apply (proj1 (acceptance_criterion demo_libs demo_env demo_self []
                  (demo_result "http://www.example.org/a") "www.example.org" Hn)).
  eexists (strip demo_page), _.
  split; [vm_compute; reflexivity |].
  split; [vm_compute; lia |].
  split; [vm_compute; reflexivity |].
  apply Qle_bool_imp_le. vm_compute. reflexivity.
Defined.

(** C4. The acceptance rule fails on a url that [urlparse] rejects.  The
    page of [http://[example.org/a] is extracted in time, has more than 400
    characters and scores above 0.35, so the rule accepts it; the guarded
    call of [urlparse] in [_classify_domain] answers unknown for it, and the
    unguarded call that fills the domain field raises [ValueError]: the
    result is not accepted, the loop over the results is left, and [build]
    returns the empty result. *)
Theorem unparsable_url_aborts_collection :
  future_result env_bad_url "http://[example.org/a" = Ret (Some (strip demo_page)) ∧
  400 ≤ String.length (strip demo_page) ∧
  (∃ v, _compute_relevance_score demo_libs demo_self (gold_query demo_self)
          (strip demo_page) = Ret v ∧ (0.35 <= v)%Q) ∧
  _classify_domain demo_libs demo_self "http://[example.org/a" = Ret unknown ∧
  process_result demo_libs env_bad_url demo_self []
    (demo_result "http://[example.org/a") = Raise ValueError ∧
  find_sources demo_libs env_bad_url demo_self [] = Raise ValueError ∧
  build demo_libs env_bad_url demo_self [] = Ret empty_result.
Proof.
  split; [vm_compute; reflexivity |].
  split; [vm_compute; lia |].
  split.
  - eexists. split; [vm_compute; reflexivity |].
    apply Qle_bool_imp_le. vm_compute. reflexivity.
  - repeat split; vm_compute; reflexivity.
Qed.

Lemma build_fail_soft_witness :
  find_sources demo_libs env_bad_url demo_self [] = Raise ValueError ∧
  build demo_libs env_bad_url demo_self [] = Ret empty_result.
Proof.
  assert (find_sources demo_libs env_bad_url demo_self [] = Raise ValueError) as Hf
    by (vm_compute; reflexivity).
  split; [exact Hf |].
  exact (proj1 (build_fail_soft demo_libs env_bad_url demo_self []) ValueError Hf eq_refl).
Defined.

(** C3 as stated fails: the exception that the search provider raises for
    the bare query is handled in the search wrapper and [build] returns sets
    that are not empty; and an interrupt raised by the provider is not an
    [Exception], and [build] raises it. *)
Lemma build_fail_soft_counterexample :
  (ddgs_text demo_env "vaccine safety" 15 = ([], Some RuntimeError) ∧
   ∃ r, build demo_libs demo_env demo_self [] = Ret r ∧
        length (clear_set r) = 4 ∧ length (unclear_set r) = 1) ∧
  (ddgs_text env_interrupted "vaccine safety" 15 = ([], Some KeyboardInterrupt) ∧
   build demo_libs env_interrupted demo_self [] = Raise KeyboardInterrupt).
Proof.
  split.
  - split; [reflexivity |].
    eexists. split; [vm_compute; reflexivity |]. split; reflexivity.
  - split; [reflexivity | vm_compute; reflexivity].
Qed.

Lemma build_texts_truncated_witness :
  ∃ r, build demo_libs demo_env demo_self [] = Ret r ∧
       Forall (λ s, String.length (f_text s) ≤ 1000) (clear_set r) ∧
       Forall (λ s, String.length (f_text s) ≤ 1000) (unclear_set r).
Proof.
  destruct (build demo_libs demo_env demo_self []) as [r|e] eqn:Hb.
  - exists r. split; [reflexivity |].
    exact (build_texts_truncated demo_libs demo_env demo_self [] r Hb).
  - exfalso. vm_compute in Hb. discriminate Hb.
Defined.

(** The run of the demo collaborators: ten of the twelve queries find the
    same page, its text is cut to 1000 characters, and its url ends up in
    both sets. *)
Example build_demo_run :
  ∃ r, build demo_libs demo_env demo_self [] = Ret r ∧
       f_url <$> clear_set r = replicate 4 "http://www.example.org/a" ∧
       f_url <$> unclear_set r = ["http://www.example.org/a"] ∧
       (String.length ∘ f_text) <$> clear_set r = replicate 4 1000 ∧
       f_category <$> clear_set r = replicate 4 reliable.
Proof. eexists. split; [vm_compute; reflexivity |]. repeat split; vm_compute; reflexivity. Qed.

(** The same holds for every tape: a shuffle of equal elements changes
    nothing. *)
Lemma twin_sources_any_shuffle (tape : list nat) :
  ∃ r, _create_paired_sets demo_env twin_sources tape 1 = Ret r ∧
       f_url <$> clear_set r = ["http://rumor.net/b"] ∧
       f_url <$> unclear_set r = ["http://rumor.net/b"].
Proof.
  destruct (create_paired_sets_slices demo_env twin_sources tape 1)
    as (rs & us & Hr & Hu & ->).
  change (filter (λ s, cat s = reliable) twin_sources) with (@nil Source) in Hr.
  change (filter (λ s, cat s = unreliable) twin_sources) with twin_sources in Hu.
  apply Permutation_nil_r in Hr as ->.
  symmetry in Hu. apply replicate_Permutation in Hu as <-.
  eexists. split; [reflexivity |]. split; reflexivity.
Qed.

(** * Properties of the remaining code *)

(** ** Loading and construction *)

Lemma hash_all_raises (l : list json) (x : exn) : hash_all l = Raise x → x = TypeError.
Proof.
  induction l as [|v l IH]; [done |]. cbn [hash_all].
  destruct (entry_of v) as [e|y] eqn:Hv.
  - rewrite bind_Ret. destruct (hash_all l) as [es|y]; cbn; [congruence | exact IH].
  - rewrite bind_Raise. intros [= <-]. destruct v; cbn in Hv; congruence.
Qed.

Lemma members_raises (v : json) (x : exn) : members v = Raise x → x = TypeError.
Proof. destruct v; cbn; try congruence. apply hash_all_raises. Qed.

Lemma iterable_true (v : option json) :
  iterable v = true →
  ∃ l, members (default (JArray []) v) = Ret l ∧
       ∀ e, e ∈ l ↔ ∃ w, v = Some w ∧ listed e w.
Proof.
  unfold iterable. destruct (members (default (JArray []) v)) as [l|x] eqn:Hm; [| done].
  intros _. exists l. split; [done |]. intros e. destruct v as [w|]; cbn in Hm.
  - split.
    + intros He. exists w. split; [done |]. by exists l.
    + intros (w' & [= <-] & l' & Hl' & He). congruence.
  - injection Hm as <-. split; [by intros []%elem_of_nil | by intros (w & [=] & _)].
Qed.

Lemma iterable_false (v : option json) :
  iterable v = false → members (default (JArray []) v) = Raise TypeError.
Proof.
  unfold iterable. destruct (members (default (JArray []) v)) as [l|x] eqn:Hm; [done |].
  by apply members_raises in Hm as ->.
Qed.

Lemma union_topics_spec (items : list (string * topic_cfg)) (racc uacc : gset entry) :
  sections_ok items = true →
  ∃ r u,
    union_topics items racc uacc = Ret (r, u) ∧
    (∀ e, e ∈ r ↔ e ∈ racc ∨
          ∃ key rv m, (key, TopicDict (Some rv) m) ∈ items ∧ listed e rv) ∧
    (∀ e, e ∈ u ↔ e ∈ uacc ∨
          ∃ key r mv, (key, TopicDict r (Some mv)) ∈ items ∧ listed e mv).
Proof.
  revert racc uacc. induction items as [|[key cfg] items IH]; intros racc uacc Hok.
  - exists racc, uacc. split; [done |]. split; intros e; split; auto.
    + intros [? | (? & ? & ? & []%elem_of_nil & _)]; done.
    + intros [? | (? & ? & ? & []%elem_of_nil & _)]; done.
  - cbn [sections_ok forallb] in Hok. apply andb_true_iff in Hok as [Hcfg Hok].
    destruct cfg as [rv mv|]; cbn [union_topics].
    + cbn in Hcfg. apply andb_true_iff in Hcfg as [Hrv Hmv].
      apply iterable_true in Hrv as (rl & Hrl & Hrin).
      apply iterable_true in Hmv as (ml & Hml & Hmin).
      unfold set_update. rewrite Hrl, !bind_Ret, Hml, !bind_Ret.
      destruct (IH (racc ∪ list_to_set rl) (uacc ∪ list_to_set ml) Hok)
        as (r & u & Hrun & Hr & Hu).
      exists r, u. split; [done |]. split; intros e.
      * rewrite Hr, elem_of_union, elem_of_list_to_set, Hrin. split.
        -- intros [[? | (w & -> & Hw)] | (k & rv' & m' & Hin & He)]; auto.
           ++ right. exists key, w, mv. split; [left | done].
           ++ right. exists k, rv', m'. split; [by right | done].
        -- intros [? | (k & rv' & m' & Hin & He)]; auto.
           apply elem_of_cons in Hin as [[= <- <- <-] | Hin]; [left; right; eauto |].
           right. eauto 10.
      * rewrite Hu, elem_of_union, elem_of_list_to_set, Hmin. split.
        -- intros [[? | (w & -> & Hw)] | (k & r' & mv' & Hin & He)]; auto.
           ++ right. exists key, rv, w. split; [left | done].
           ++ right. exists k, r', mv'. split; [by right | done].
        -- intros [? | (k & r' & mv' & Hin & He)]; auto.
           apply elem_of_cons in Hin as [[= <- <- <-] | Hin]; [left; right; eauto |].
           right. eauto 10.
    + destruct (IH racc uacc Hok) as (r & u & Hrun & Hr & Hu).
      exists r, u. split; [done |]. split; intros e.
      * rewrite Hr. split; intros [? | (k & rv' & m' & Hin & He)]; auto.
        -- right. exists k, rv', m'. split; [by right | done].
        -- apply elem_of_cons in Hin as [[=] | Hin]. right. eauto 10.
      * rewrite Hu. split; intros [? | (k & r' & mv' & Hin & He)]; auto.
        -- right. exists k, r', mv'. split; [by right | done].
        -- apply elem_of_cons in Hin as [[=] | Hin]. right. eauto 10.
Qed.

Lemma union_topics_raises (items : list (string * topic_cfg)) (racc uacc : gset entry) :
  sections_ok items = false → union_topics items racc uacc = Raise TypeError.
Proof.
  revert racc uacc. induction items as [|[key cfg] items IH]; intros racc uacc Hbad.
  - done.
  - cbn [sections_ok forallb] in Hbad. destruct cfg as [rv mv|]; cbn [union_topics].
    + cbn [section_ok snd] in Hbad. unfold set_update.
      destruct (iterable rv) eqn:Hrv.
      * apply iterable_true in Hrv as (rl & -> & _). rewrite !bind_Ret.
        destruct (iterable mv) eqn:Hmv.
        -- apply iterable_true in Hmv as (ml & -> & _). rewrite !bind_Ret.
           by apply IH.
        -- by rewrite (iterable_false _ Hmv).
      * by rewrite (iterable_false _ Hrv).
    + by apply IH.
Qed.

(** X1. Let the configuration file hold a JSON object.  When in every
    section that is an object the values under ["reliable"] and
    ["misleading"], where present, can update a set (an array of strings,
    numbers, booleans and nulls; a string, which gives its characters; an
    object, which gives its keys), the loader returns, and afterwards the
    reliable table holds exactly the members that some such section gives
    under ["reliable"], and the unreliable table exactly those given under
    ["misleading"]: all sections count, whatever their key, the sets the
    object held before are replaced, and its other fields are kept.  When
    some section holds another value under one of the two keys (a number, a
    boolean, null, or an array with an array or an object in it), the loader
    raises [TypeError]. *)
Theorem load_domain_config_union (E : Env) (self : SourceFinder)
    (items : list (string * topic_cfg)) :
  read_json E (domain_trust_config_path self) = Ret (ConfigDict items) →
  if sections_ok items then
    ∃ self' log,
      _load_domain_config E self = Ret (self', log) ∧
      (∀ e, e ∈ reliable_domains self' ↔
            ∃ key rv m, (key, TopicDict (Some rv) m) ∈ items ∧ listed e rv) ∧
      (∀ e, e ∈ unreliable_domains self' ↔
            ∃ key r mv, (key, TopicDict r (Some mv)) ∈ items ∧ listed e mv) ∧
      gold_query self' = gold_query self ∧ topic self' = topic self ∧
      search_queries self' = search_queries self ∧ stopwords self' = stopwords self
  else _load_domain_config E self = Raise TypeError.
Proof.
  intros Hread. unfold _load_domain_config, load_body. rewrite Hread, bind_Ret.
  destruct (sections_ok items) eqn:Hok.
  - destruct (union_topics_spec items ∅ ∅ Hok) as (r & u & -> & Hr & Hu).
    rewrite bind_Ret. eexists _, _. split; [reflexivity |]. cbn.
    split; [| split; [| done]].
    + intros e. rewrite Hr. split; [intros [[]%elem_of_empty | ?]; done | auto].
    + intros e. rewrite Hu. split; [intros [[]%elem_of_empty | ?]; done | auto].
  - by rewrite (union_topics_raises items ∅ ∅ Hok).
Qed.

Lemma load_domain_config_union_witness :
  (∃ self' log,
     _load_domain_config demo_env demo_self = Ret (self', log) ∧
     EStr "rumor.net" ∈ unreliable_domains self') ∧
  _load_domain_config env_scalar_config demo_self = Raise TypeError.
Proof.
  split.
  - destruct (load_domain_config_union demo_env demo_self
                [ ("public_health",
                   TopicDict (Some (JArray [JString "example.org"]))
                             (Some (JArray [JString "rumor.net"])));
                  ("notes", NotADict) ] eq_refl)
      as (self' & log & Hload & _ & Hu & _).
    exists self', log. split; [exact Hload |].
    apply Hu. exists "public_health", (Some (JArray [JString "example.org"])),
                (JArray [JString "rumor.net"]).
    split; [left |]. exists [EStr "rumor.net"]. split; [reflexivity | left].
  - exact (load_domain_config_union env_scalar_config demo_self
             [ ("a", TopicDict (Some (JNumber (Finite (Q2Qc 5)))) None) ] eq_refl).
Defined.

(** X2. The trust tables that the constructor loads do not depend on the
    gold query, and so not on the topic extracted from it: two objects
    built over the same collaborators and path have the same tables, and the
    construction of one raises exactly when the construction of the other
    does. *)
Theorem init_tables_ignore_query (L : Libs) (E : Env) (q1 q2 path : string) :
  match init L E q1 path, init L E q2 path with
  | Ret (s1, log1), Ret (s2, log2) =>
      reliable_domains s1 = reliable_domains s2 ∧
      unreliable_domains s1 = unreliable_domains s2 ∧ log1 = log2
  | Raise e1, Raise e2 => e1 = e2
  | _, _ => False
  end.
Proof.
  unfold init, _load_domain_config, load_body. cbn.
  destruct (read_json E path) as [[items|]|e]; cbn.
  - destruct (union_topics items ∅ ∅) as [[r u]|x]; cbn; [done |].
    destruct x; cbn; done.
  - done.
  - destruct e; cbn; done.
Qed.

(** ** Topic and keywords *)

Lemma lower_char_idem (c : ascii) : lower_char (lower_char c) = lower_char c.
Proof. destruct c as [[] [] [] [] [] [] [] []]; reflexivity. Qed.

Lemma lower_idem (s : string) : lower (lower s) = lower s.
Proof.
  induction s as [|c s IH]; [done |].
  simpl. by rewrite lower_char_idem, IH.
Qed.

(** X3. The topic of a query is one of six labels, it does not depend on the
    case of the letters of the query, and a query that mentions health,
    medical, medicine, disease or treatment is [public_health] whatever else
    it mentions. *)
Theorem extract_topic_labels (query : string) :
  _extract_topic_from_query query ∈ topic_labels ∧
  (∀ query', lower query' = lower query →
     _extract_topic_from_query query' = _extract_topic_from_query query) ∧
  (∀ word, word ∈ ["health"; "medical"; "medicine"; "disease"; "treatment"] →
     contains word (lower query) = true →
     _extract_topic_from_query query = "public_health").
Proof.
  split; [| split].
  - unfold _extract_topic_from_query, topic_labels.
    repeat case_match; set_solver.
  - intros query' Heq. unfold _extract_topic_from_query. by rewrite Heq.
  - intros word Hword Hc. unfold _extract_topic_from_query.
    assert (any_in ["health"; "medical"; "medicine"; "disease"; "treatment"]
              (lower query) = true) as ->; [| done].
    unfold any_in. apply existsb_exists. exists word.
    split; [by apply list_elem_of_In | done].
Qed.

Lemma extract_topic_labels_witness :
  _extract_topic_from_query "Is money bad for your HEALTH?" = "public_health".
Proof.
  refine (proj2 (proj2 (extract_topic_labels "Is money bad for your HEALTH?"))
            "health" _ _).
  - apply (bool_decide_unpack _). vm_compute. exact I.
  - vm_compute. reflexivity.
Defined.

(** X4. The keywords of a text do not depend on the case of its letters, and
    extracting them from the lower-cased text changes nothing. *)
Theorem extract_keywords_ignore_case (self : SourceFinder) (text text' : string) :
  lower text' = lower text →
  _extract_keywords self text' = _extract_keywords self text ∧
  _extract_keywords self (lower text) = _extract_keywords self text.
Proof.
  intros Heq. unfold _extract_keywords. by rewrite Heq, lower_idem.
Qed.

Lemma extract_keywords_ignore_case_witness :
  _extract_keywords demo_self "VACCINE Safety" = _extract_keywords demo_self "vaccine safety".
Proof.
  exact (proj1 (extract_keywords_ignore_case demo_self "vaccine safety" "VACCINE Safety"
                  eq_refl)).
Defined.

(** ** The scorer on full and on missing coverage *)

Lemma count_hits_all (kws : list string) (t : string) :
  Forall (λ k, contains k t = true) kws → count_hits kws t = length kws.
Proof.
  intros Hall. unfold count_hits.
  induction Hall as [|k kws Hk Hall IH]; [done |].
  rewrite filter_cons, decide_True by done. simpl. by rewrite IH.
Qed.

Lemma count_hits_none (kws : list string) (t : string) :
  Forall (λ k, contains k t = false) kws → count_hits kws t = 0.
Proof.
  intros Hall. unfold count_hits.
  induction Hall as [|k kws Hk Hall IH]; [done |].
  rewrite filter_cons, decide_False by (rewrite Hk; done). done.
Qed.

Lemma contains_empty_text (k : string) : k ≠ "" → contains k "" = false.
Proof. by destruct k. Qed.

Lemma full_coverage_score (L : Libs) (self : SourceFinder) (query text : string) :
  (∀ a b, 0 <= token_set_ratio L a b)%Q →
  _extract_keywords self query ≠ [] →
  Forall (λ k, contains k (lower text) = true) (_extract_keywords self query) →
  ∃ v, _compute_relevance_score L self query text = Ret v ∧
       (0.6 <= v)%Q ∧ Qlt_bool v 0.35 = false.
Proof.
  intros Hratio Hne Hall. unfold _compute_relevance_score, keyword_hit_rate.
  destruct (_extract_keywords self query) as [|k kws] eqn:Hk; [done |].
  rewrite count_hits_all by done.
  cbn [length true_div]. cbn [mbind outcome_bind].
  eexists. split; [reflexivity |].
  set (n := inject_Z (Z.of_nat (S (length kws)))).
  assert (0 < n)%Q as Hn.
  { unfold n. change 0%Q with (inject_Z 0). rewrite <-Zlt_Qlt. lia. }
  assert (n / n == 1)%Q as Hone by (apply Qmult_inv_r; lra).
  assert (0 <= fuzzy_score L query text)%Q as Hf.
  { unfold fuzzy_score. specialize (Hratio query (str_take 5000 text)).
    set (r := token_set_ratio L query (str_take 5000 text)) in *.
    assert (r / 100 == r * (1 # 100))%Q as -> by (unfold Qdiv; reflexivity). lra. }
  assert (0.6 <= 0.6 * (n / n) + 0.4 * fuzzy_score L query text)%Q as Hv.
  { rewrite Hone. lra. }
  split; [exact Hv |].
  apply Qlt_bool_false. lra.
Qed.

(** X5. When every keyword of a query with keywords occurs in the
    lower-cased text, the keyword hit rate is 1 and the score is at least
    0.6, whatever the similarity ratio, as long as that is not negative:
    such a text passes the 0.35 threshold of [find_sources]. *)
Theorem full_coverage_passes (L : Libs) (self : SourceFinder) (query text : string) :
  (∀ a b, 0 <= token_set_ratio L a b)%Q →
  _extract_keywords self query ≠ [] →
  Forall (λ k, contains k (lower text) = true) (_extract_keywords self query) →
  (∃ h, keyword_hit_rate (_extract_keywords self query) text = Ret h ∧ (h == 1)%Q) ∧
  ∃ v, _compute_relevance_score L self query text = Ret v ∧
       (0.6 <= v)%Q ∧ Qlt_bool v 0.35 = false.
Proof.
  intros Hratio Hne Hall. split; [| by apply full_coverage_score].
  unfold keyword_hit_rate. rewrite count_hits_all by done.
  destruct (_extract_keywords self query) as [|k kws]; [done |].
  cbn [length true_div]. eexists. split; [reflexivity |].
  apply Qmult_inv_r. change 0%Q with (inject_Z 0). rewrite inject_Z_injective. lia.
Qed.

Lemma full_coverage_passes_witness :
  ∃ v, _compute_relevance_score demo_libs demo_self "vaccine safety" demo_page = Ret v ∧
       (0.6 <= v)%Q.
Proof.
  destruct (full_coverage_passes demo_libs demo_self "vaccine safety" demo_page)
    as (_ & v & Hv & Hle & _).
  - intros a b. simpl. lra.
  - vm_compute. discriminate.
  - apply (bool_decide_unpack _). vm_compute. exact I.
  - exists v. auto.
Defined.

(** X6. When no keyword of a query with keywords occurs in the lower-cased
    text, as for the empty text, the score is 0.4 times the similarity ratio
    divided by 100; with a ratio below 87.5 it is below the 0.35 threshold. *)
Theorem no_coverage_score (L : Libs) (self : SourceFinder) (query text : string) :
  _extract_keywords self query ≠ [] →
  (text = "" ∨
   Forall (λ k, contains k (lower text) = false) (_extract_keywords self query)) →
  ∃ v, _compute_relevance_score L self query text = Ret v ∧
       (v == 0.4 * (token_set_ratio L query (str_take 5000 text) / 100))%Q ∧
       ((token_set_ratio L query (str_take 5000 text) < 87.5)%Q →
        Qlt_bool v 0.35 = true).
Proof.
  intros Hne Hnone.
  assert (Forall (λ k, contains k (lower text) = false) (_extract_keywords self query))
    as Hall.
  { destruct Hnone as [-> | ?]; [| done].
    eapply Forall_impl; [apply extract_keywords_words |].
    intros k (_ & Hlen & _). apply contains_empty_text.
    intros ->. simpl in Hlen. lia. }
  unfold _compute_relevance_score, keyword_hit_rate.
  destruct (_extract_keywords self query) as [|k kws] eqn:Hk; [done |].
  rewrite count_hits_none by done.
  cbn [length true_div]. cbn [mbind outcome_bind].
  eexists. split; [reflexivity |].
  unfold fuzzy_score.
  set (r := token_set_ratio L query (str_take 5000 text)).
  set (n := inject_Z (Z.of_nat (S (length kws)))).
  assert (inject_Z (Z.of_nat 0) / n == 0)%Q as Hzero.
  { unfold Qdiv. change (inject_Z (Z.of_nat 0)) with 0%Q. apply Qmult_0_l. }
  assert (r / 100 == r * (1 # 100))%Q as Hdiv by (unfold Qdiv; reflexivity).
  split.
  - rewrite Hzero. lra.
  - intros Hr. unfold Qlt_bool. apply negb_true_iff.
    destruct (Qle_bool 0.35 (0.6 * (inject_Z (Z.of_nat 0) / n) + 0.4 * (r / 100)))
      eqn:Hb; [| done].
    apply Qle_bool_iff in Hb. rewrite Hzero, Hdiv in Hb. lra.
Qed.

Lemma no_coverage_score_witness :
  ∃ v, _compute_relevance_score demo_libs demo_self "vaccine safety" "" = Ret v ∧
       Qlt_bool v 0.35 = true.
Proof.
  destruct (no_coverage_score demo_libs demo_self "vaccine safety" "")
    as (v & Hv & _ & Hlow).
  - vm_compute. discriminate.
  - left. reflexivity.
  - exists v. split; [exact Hv |]. apply Hlow. simpl. lra.
Defined.

(** ** The search wrapper *)

Lemma py_or_truthy (a b : option string) (u : string) :
  py_or a b = Some u → truthy u = true →
  (a = Some u) ∨ (b = Some u ∧ ∀ s, a = Some s → s = "").
Proof.
  unfold py_or. destruct a as [s|].
  - destruct (truthy s) eqn:Hs.
    + intros [= ->] _. by left.
    + intros -> _. right. split; [done |]. intros s' [= <-]. by destruct s.
  - intros -> _. right. split; done.
Qed.

Lemma omap_length_le {A B} (f : A → option B) (l : list A) :
  length (omap f l) ≤ length l.
Proof.
  induction l as [|x l IH]; [done |].
  cbn. destruct (f x); simpl; lia.
Qed.

Lemma search_results_omap (E : Env) (query : string) (max_results : nat)
    (results : list search_result) :
  _search_duckduckgo E query max_results = Ret results →
  results = omap hit_of (ddgs_text E query max_results).1.
Proof.
  unfold _search_duckduckgo.
  destruct (ddgs_text E query max_results) as [hits err]. cbn [fst].
  unfold try_except, try_catch.
  destruct err as [e|]; [destruct (is_Exception e) |]; congruence.
Qed.

(** X7. What the search wrapper returns are the hits delivered before the
    provider stopped or failed, in the order of delivery, without those that
    have no address: at most as many results as hits, and every result has a
    non-empty url, which is the [href] of a hit, or its [link] when [href]
    is absent or empty, or its [url] when both are. *)
Theorem search_results_have_urls (E : Env) (query : string) (max_results : nat)
    (results : list search_result) :
  _search_duckduckgo E query max_results = Ret results →
  results = omap hit_of (ddgs_text E query max_results).1 ∧
  length results ≤ length (ddgs_text E query max_results).1 ∧
  Forall (λ r, r_url r ≠ "" ∧
               ∃ hit, hit ∈ (ddgs_text E query max_results).1 ∧
                      (href hit = Some (r_url r) ∨
                       (link hit = Some (r_url r) ∧ href hit ∈ [None; Some ""]) ∨
                       (raw_url hit = Some (r_url r) ∧ href hit ∈ [None; Some ""] ∧
                        link hit ∈ [None; Some ""])))
         results.
Proof.
  intros Hres. apply search_results_omap in Hres as ->.
  set (hits := (ddgs_text E query max_results).1).
  split; [done |]. split; [apply omap_length_le |].
  apply Forall_forall. intros r Hr.
  apply list_elem_of_omap in Hr as (hit & Hhit & Hof).
  unfold hit_of in Hof.
  destruct (py_or (py_or (href hit) (link hit)) (raw_url hit)) as [u|] eqn:Hor; [| done].
  destruct (truthy u) eqn:Hu; [| done].
  injection Hof as <-. cbn [r_url].
  split; [by destruct u |].
  exists hit. split; [done |].
  assert (∀ o : option string, (∀ s, o = Some s → s = "") → o ∈ [None; Some ""]) as Hempty.
  { intros [s|] Hs; [rewrite (Hs s eq_refl) | ]; set_solver. }
  destruct (py_or_truthy _ _ _ Hor Hu) as [Hor' | [Hraw Hnone]].
  - destruct (py_or_truthy _ _ _ Hor' Hu) as [Hh | [Hl Hnone]]; auto.
  - right. right. split; [done |].
    destruct (href hit) as [h|] eqn:Hh.
    + unfold py_or in Hnone. destruct (truthy h) eqn:Hth.
      * specialize (Hnone h eq_refl). subst h. done.
      * destruct h; [| done]. split; [set_solver |].
        apply Hempty. intros s Hs. by apply Hnone.
    + split; [set_solver |]. apply Hempty. intros s Hs. by apply Hnone.
Qed.

Lemma search_results_have_urls_witness :
  _search_duckduckgo env_mixed "vaccine safety" 15 =
    Ret [ {| r_url := "http://example.org/l"; r_title := ""; r_snippet := "" |};
          demo_result "http://example.org/h" ] ∧
  length [ {| r_url := "http://example.org/l"; r_title := ""; r_snippet := "" |};
           demo_result "http://example.org/h" ] ≤ length mixed_hits.
Proof.
  assert (_search_duckduckgo env_mixed "vaccine safety" 15 =
            Ret [ {| r_url := "http://example.org/l"; r_title := ""; r_snippet := "" |};
                  demo_result "http://example.org/h" ]) as Hrun by reflexivity.
  split; [exact Hrun |].
  exact (proj1 (proj2 (search_results_have_urls env_mixed "vaccine safety" 15 _ Hrun))).
Defined.
(** ** The extraction wrapper *)

Section strip_facts.
Variable p : ascii → bool.

Lemma lstrip_by_clean s : clean_start p (lstrip_by p s).
Proof.
  induction s as [|c s IH]; [done |].
  simpl. destruct (p c) eqn:Hc; [done | exact Hc].
Qed.

Lemma lstrip_by_fixed s : clean_start p s → lstrip_by p s = s.
Proof. destruct s as [|c s]; [done |]. simpl. by intros ->. Qed.

Lemma rstrip_by_clean s : clean_start p s → clean_start p (rstrip_by p s).
Proof.
  destruct s as [|c s]; [done |].
  cbn [clean_start rstrip_by]. intros Hc.
  destruct (rstrip_by p s); [by rewrite Hc | done].
Qed.

Lemma rstrip_by_idem s : rstrip_by p (rstrip_by p s) = rstrip_by p s.
Proof.
  induction s as [|c s IH]; [done |].
  cbn [rstrip_by].
  destruct (rstrip_by p s) as [|d r] eqn:Hr.
  - destruct (p c) eqn:Hc; [done |]. cbn [rstrip_by]. by rewrite Hc.
  - cbn [rstrip_by]. cbn [rstrip_by] in IH. by rewrite IH.
Qed.
End strip_facts.

Lemma strip_idem (s : string) : strip (strip s) = strip s.
Proof.
  unfold strip.
  rewrite (lstrip_by_fixed isspace (rstrip_by isspace (lstrip_by isspace s))).
  - apply rstrip_by_idem.
  - apply rstrip_by_clean, lstrip_by_clean.
Qed.

Lemma truthy_ne (s : string) : truthy s = true ↔ s ≠ "".
Proof. by destruct s. Qed.

Lemma do_extract_Some (E : Env) (u t : string) :
  _do_extract E u = Ret (Some t) ↔
  ∃ d raw, fetch_url E u = Ret (Some d) ∧ d ≠ "" ∧
           trafilatura_extract E d = Ret (Some raw) ∧ raw ≠ "" ∧ t = strip raw.
Proof.
  unfold _do_extract, try_except, try_catch. split.
  - destruct (fetch_url E u) as [[d|]|e]; cbn.
    + destruct (truthy d) eqn:Hd; cbn; [| done].
      destruct (trafilatura_extract E d) as [[raw|]|e] eqn:Hx; cbn.
      * destruct (truthy raw) eqn:Hraw; [| done].
        intros [= <-]. exists d, raw. by rewrite <-!truthy_ne.
      * done.
      * by destruct (is_Exception e).
    + done.
    + by destruct (is_Exception e).
  - intros (d & raw & -> & Hd%truthy_ne & Hx & Hraw%truthy_ne & ->). cbn.
    rewrite Hd. cbn. rewrite Hx. cbn. by rewrite Hraw.
Qed.

Lemma do_extract_no_Exception (E : Env) (u : string) (e : exn) :
  _do_extract E u = Raise e → is_Exception e = false.
Proof.
  unfold _do_extract, try_except, try_catch.
  destruct (fetch_url E u) as [[d|]|e']; cbn.
  - destruct (truthy d); cbn; [| done].
    destruct (trafilatura_extract E d) as [[raw|]|e'']; cbn.
    + by destruct (truthy raw).
    + done.
    + destruct (is_Exception e'') eqn:He; [done |]. by intros [= <-].
  - done.
  - destruct (is_Exception e') eqn:He; [done |]. by intros [= <-].
Qed.

Lemma extract_text_long (E : Env) (u t : string) :
  _extract_text_from_url E u = Ret (Some t) → 400 ≤ String.length t.
Proof.
  rewrite extract_text_cases.
  destruct (future_result E u) as [[t'|]|e].
  - destruct (400 <=? String.length t') eqn:Hlen; [| done].
    intros [= <-]. by apply Nat.leb_le.
  - done.
  - by destruct (bool_decide (e = FuturesTimeout)).
Qed.

(** X8. The extraction wrapper returns a text exactly when the worker
    completes in time, the download is not empty, the extractor returns a
    non-empty text, and that text, stripped of surrounding whitespace, has
    at least 400 characters; the text returned is the stripped one, so it
    neither starts nor ends with whitespace. *)
Theorem extract_text_success (E : Env) (u t : string) :
  (_extract_text_from_url E u = Ret (Some t) ↔
   finishes_in_time E u = true ∧
   ∃ d raw, fetch_url E u = Ret (Some d) ∧ d ≠ "" ∧
            trafilatura_extract E d = Ret (Some raw) ∧ raw ≠ "" ∧
            t = strip raw ∧ 400 ≤ String.length t) ∧
  (_extract_text_from_url E u = Ret (Some t) → strip t = t).
Proof.
  assert (_extract_text_from_url E u = Ret (Some t) ↔
          finishes_in_time E u = true ∧ _do_extract E u = Ret (Some t) ∧
          400 ≤ String.length t) as Hcases.
  { rewrite extract_text_cases. unfold future_result.
    destruct (finishes_in_time E u).
    - destruct (_do_extract E u) as [[t'|]|e].
      + destruct (400 <=? String.length t') eqn:Hlen.
        * apply Nat.leb_le in Hlen. split.
          -- intros [= <-]. done.
          -- by intros (_ & [= <-] & _).
        * apply Nat.leb_gt in Hlen. split; [done |].
          intros (_ & [= <-] & ?). lia.
      + split; [done | by intros (_ & ? & _)].
      + destruct (bool_decide (e = FuturesTimeout)); split; try done;
          by intros (_ & ? & _).
    - rewrite bool_decide_eq_true_2 by done. split; [done | by intros [? _]]. }
  split.
  - rewrite Hcases, do_extract_Some. split.
    + intros (? & (d & raw & ?) & ?). split; [done |]. exists d, raw. tauto.
    + intros (? & d & raw & ? & ? & ? & ? & ? & ?). split; [done |].
      split; [| done]. exists d, raw. tauto.
  - rewrite Hcases, do_extract_Some.
    intros (_ & (d & raw & _ & _ & _ & _ & ->) & _). apply strip_idem.
Qed.

(** X9. The extraction wrapper raises no exception of class [Exception]:
    when the worker does not complete in time, when the download or the
    extractor raises one, when the download is absent or the extracted text
    is absent, empty or made of whitespace, or has fewer than 400 characters
    after stripping, it returns nothing. *)
Theorem extract_text_failures (E : Env) (u : string) :
  (∀ e, _extract_text_from_url E u = Raise e → is_Exception e = false) ∧
  (finishes_in_time E u = false → _extract_text_from_url E u = Ret None) ∧
  (∀ e, fetch_url E u = Raise e → is_Exception e = true →
        _extract_text_from_url E u = Ret None) ∧
  (fetch_url E u = Ret None → _extract_text_from_url E u = Ret None) ∧
  (∀ d e, fetch_url E u = Ret (Some d) →
          trafilatura_extract E d = Raise e → is_Exception e = true →
          _extract_text_from_url E u = Ret None) ∧
  (∀ d raw, fetch_url E u = Ret (Some d) →
            trafilatura_extract E d = Ret raw →
            (∀ t, raw = Some t → String.length (strip t) < 400) →
            _extract_text_from_url E u = Ret None).
Proof.
  rewrite extract_text_cases. unfold future_result.
  split; [| split; [| split; [| split; [| split]]]].
  - intros e. destruct (finishes_in_time E u).
    + destruct (_do_extract E u) as [[t|]|e'] eqn:Hd.
      * by destruct (400 <=? String.length t).
      * done.
      * apply do_extract_no_Exception in Hd.
        destruct (bool_decide (e' = FuturesTimeout)); [done |]. by intros [= <-].
    + by rewrite bool_decide_eq_true_2.
  - intros ->. by rewrite bool_decide_eq_true_2.
  - intros e Hf He. destruct (finishes_in_time E u); [| by rewrite bool_decide_eq_true_2].
    unfold _do_extract, try_except, try_catch. rewrite Hf. cbn. by rewrite He.
  - intros Hf. destruct (finishes_in_time E u); [| by rewrite bool_decide_eq_true_2].
    unfold _do_extract, try_except, try_catch. by rewrite Hf.
  - intros d e Hf Hx He.
    destruct (finishes_in_time E u); [| by rewrite bool_decide_eq_true_2].
    unfold _do_extract, try_except, try_catch. rewrite Hf. cbn.
    destruct (truthy d); cbn; [| done]. rewrite Hx. cbn. by rewrite He.
  - intros d raw Hf Hx Hshort.
    destruct (finishes_in_time E u); [| by rewrite bool_decide_eq_true_2].
    unfold _do_extract, try_except, try_catch. rewrite Hf, bind_Ret.
    destruct (truthy d); cbn [negb]; [| done]. rewrite Hx, bind_Ret.
    destruct raw as [t|]; [| done].
    destruct (truthy t); [| done].
    specialize (Hshort t eq_refl).
    destruct (400 <=? String.length (strip t)) eqn:Hlen; [| done].
    apply Nat.leb_le in Hlen. lia.
Qed.

Lemma extract_text_success_witness :
  _extract_text_from_url demo_env "http://www.example.org/a" = Ret (Some (strip demo_page)).
Proof.
  apply (proj2 (proj1 (extract_text_success demo_env "http://www.example.org/a"
                         (strip demo_page)))).
  split; [reflexivity |].
  exists "<html>", demo_page.
  split; [reflexivity |]. split; [discriminate |].
  split; [reflexivity |]. split; [vm_compute; discriminate |].
  split; [reflexivity |]. vm_compute. lia.
Defined.

Lemma extract_text_failures_witness :
  _extract_text_from_url (mk_env (Ret demo_config) (λ _ _, ([], None)) "   tiny   ")
    "http://www.example.org/a" = Ret None.
Proof.
  refine (proj2 (proj2 (proj2 (proj2 (proj2
            (extract_text_failures
               (mk_env (Ret demo_config) (λ _ _, ([], None)) "   tiny   ")
               "http://www.example.org/a")))))
            "<html>" (Some "   tiny   ") eq_refl eq_refl _).
  intros t [= <-]. vm_compute. lia.
Defined.

(** ** The pairing under scarcity *)

Section scarcity_facts.
Variable E : Env.
Implicit Types (l rs us : list Source).

Lemma cat_replicate c l :
  Forall (λ s, cat s = c) l → cat <$> l = replicate (length l) c.
Proof.
  induction 1 as [|s l Hs Hl IH]; [done |].
  by rewrite fmap_cons, Hs, IH.
Qed.

Lemma filter_cat_all c l : Forall (λ s, cat s = c) (filter (λ s, cat s = c) l).
Proof. apply Forall_forall. intros s Hs. by apply list_elem_of_filter in Hs as [? _]. Qed.

Lemma format_all_length t l : length (format_all E t l) = length l.
Proof. by rewrite <-(length_fmap f_url), format_all_url, length_fmap. Qed.

Lemma format_all_core t l : f_core <$> format_all E t l = core <$> l.
Proof. revert t. induction l as [|s l IH]; intros t; simpl; [done | by rewrite IH]. Qed.

Lemma format_all_app t l k :
  format_all E t (l ++ k) = format_all E t l ++ format_all E (t + length l) k.
Proof.
  revert t. induction l as [|s l IH]; intros t; simpl.
  - by rewrite Nat.add_0_r.
  - rewrite IH. do 3 f_equal. lia.
Qed.

Lemma slices_submseteq rs us : clear_of rs us ++ unclear_of rs us ⊆+ rs ++ us.
Proof.
  unfold clear_of, unclear_of.
  assert (take 4 rs ++ take 1 (drop 4 rs) ⊆+ rs) as Hr.
  { rewrite <-(take_drop 4 rs) at 3. apply submseteq_app; [done |]. apply submseteq_take. }
  assert (take 1 us ++ take 3 (drop 1 us) ⊆+ us) as Hu.
  { rewrite <-(take_drop 1 us) at 3. apply submseteq_app; [done |]. apply submseteq_take. }
  etrans; [| apply submseteq_app; [exact Hr | exact Hu]].
  apply Permutation_submseteq.
  rewrite <-!(assoc_L (++)). f_equiv.
  rewrite !(assoc_L (++)). f_equiv. apply Permutation_app_comm.
Qed.

Lemma filter_known_submseteq l :
  filter (λ s, cat s = reliable) l ++ filter (λ s, cat s = unreliable) l ⊆+ l.
Proof. rewrite <-filter_known_perm. apply sublist_submseteq, sublist_filter. Qed.
End scarcity_facts.

(** X10. For every input the pairing returns, and with [R] reliable and [U]
    unreliable sources in the input the clear set consists of min(4, R)
    reliable sources followed by min(1, U) unreliable ones, and the unclear
    set of min(1, R - 4) reliable sources followed by min(3, U - 1)
    unreliable ones: never more than 5 and 4 sources, never a source of
    unknown category, and nothing in the unclear set unless the clear set
    has its full share of that category. *)
Theorem paired_sets_make_up (E : Env) (sources : list Source) (tape : list nat) (t : nat) :
  ∃ r, _create_paired_sets E sources tape t = Ret r ∧
       f_category <$> clear_set r =
         replicate (4 `min` count_category reliable sources) reliable ++
         replicate (1 `min` count_category unreliable sources) unreliable ∧
       f_category <$> unclear_set r =
         replicate (1 `min` (count_category reliable sources - 4)) reliable ++
         replicate (3 `min` (count_category unreliable sources - 1)) unreliable ∧
       length (clear_set r) ≤ 5 ∧ length (unclear_set r) ≤ 4.
Proof.
  destruct (create_paired_sets_slices E sources tape t) as (rs & us & Hr & Hu & Heq).
  assert (Forall (λ s, cat s = reliable) rs) as Hfr by (rewrite Hr; apply filter_cat_all).
  assert (Forall (λ s, cat s = unreliable) us) as Hfu by (rewrite Hu; apply filter_cat_all).
  assert (length rs = count_category reliable sources) as Hlr by (by rewrite Hr).
  assert (length us = count_category unreliable sources) as Hlu by (by rewrite Hu).
  eexists. split; [exact Heq |]. cbn [clear_set unclear_set].
  rewrite !format_all_category, !format_all_length. unfold clear_of, unclear_of.
  rewrite !fmap_app.
  rewrite (cat_replicate reliable (take 4 rs)) by (by apply Forall_take).
  rewrite (cat_replicate unreliable (take 1 us)) by (by apply Forall_take).
  rewrite (cat_replicate reliable (take 1 (drop 4 rs)))
    by (by apply Forall_take, Forall_drop).
  rewrite (cat_replicate unreliable (take 3 (drop 1 us)))
    by (by apply Forall_take, Forall_drop).
  rewrite !length_app, !length_take, !length_drop, Hlr, Hlu.
  repeat split; lia.
Qed.

(** X11. No source is used twice: the sources of the clear set followed by
    those of the unclear set are, field by field, a selection from the
    input in which every input source occurs at most as often as in the
    input. *)
Theorem paired_sets_no_reuse (E : Env) (sources : list Source) (tape : list nat) (t : nat) :
  ∃ r, _create_paired_sets E sources tape t = Ret r ∧
       f_core <$> (clear_set r ++ unclear_set r) ⊆+ core <$> sources.
Proof.
  destruct (create_paired_sets_slices E sources tape t) as (rs & us & Hr & Hu & Heq).
  eexists. split; [exact Heq |]. cbn [clear_set unclear_set].
  rewrite fmap_app, !format_all_core, <-fmap_app.
  apply fmap_submseteq.
  etrans; [apply slices_submseteq |].
  rewrite Hr, Hu. apply filter_known_submseteq.
Qed.
(** ** What the run collects and returns *)

Section run_facts.
Variables (L : Libs) (E : Env) (self : SourceFinder).

Lemma str_take_length_min n s : String.length (str_take n s) = n `min` String.length s.
Proof.
  revert s. induction n as [|n IH]; intros [|c s]; simpl; try done.
  by rewrite IH.
Qed.

Lemma for_each_inv_in {A S} (P : S → Prop) (body : S → A → outcome S) xs acc r :
  (∀ acc x acc', x ∈ xs → P acc → body acc x = Ret acc' → P acc') →
  P acc → for_each body xs acc = Ret r → P r.
Proof.
  revert acc. induction xs as [|x xs IH]; intros acc Hbody Hacc Hrun.
  - by injection Hrun as <-.
  - cbn [for_each] in Hrun.
    apply bind_Ret_inv in Hrun as (acc' & Hstep & Hrest).
    eapply (IH acc'); [| | exact Hrest].
    + intros a y a' Hy. apply Hbody. by right.
    + eapply Hbody; [left | exact Hacc | exact Hstep].
Qed.

(** One pass of the loop body either leaves the collection as it is or
    appends one source, made from the hit as the code does. *)
Lemma process_result_appends acc result acc' :
  process_result L E self acc result = Ret acc' →
  acc' = acc ∨
  ∃ s t n,
    acc' = acc ++ [s] ∧ url s = r_url result ∧
    _extract_text_from_url E (r_url result) = Ret (Some t) ∧
    text s = str_take 1000 t ∧
    _compute_relevance_score L self (gold_query self) t = Ret (score s) ∧
    Qlt_bool (score s) 0.35 = false ∧
    _classify_domain L self (r_url result) = Ret (cat s) ∧
    urlparse_netloc L (r_url result) = Ret n ∧ domain s = replace_www n ∧
    title s = r_title result ∧ snippet s = r_snippet result.
Proof.
  intros Hres. unfold process_result in Hres.
  apply bind_Ret_inv in Hres as (ot & Hext & Hres).
  destruct ot as [t|]; [| left; by injection Hres as <-].
  destruct (negb (truthy t)); [left; by injection Hres as <- |].
  apply bind_Ret_inv in Hres as (v & Hv & Hres).
  destruct (Qlt_bool v 0.35) eqn:Hlt; [left; by injection Hres as <- |].
  apply bind_Ret_inv in Hres as (c & Hc & Hres).
  apply bind_Ret_inv in Hres as (n & Hn & Hres).
  apply Ret_inj in Hres. subst acc'.
  right. eexists _, t, n. split; [reflexivity |]. cbn [url text score cat domain title snippet].
  done.
Qed.

(** An invariant of the collected sources that every appended source
    establishes holds of the whole collection. *)
Lemma collect_sources_inv (P : Source → Prop) all_sources :
  (∀ query results result acc s,
     query ∈ all_queries self →
     _search_duckduckgo E query 15 = Ret results → result ∈ results →
     process_result L E self acc result = Ret (acc ++ [s]) → P s) →
  collect_sources L E self = Ret all_sources → Forall P all_sources.
Proof.
  intros Hstep. unfold collect_sources.
  apply (for_each_inv_in (Forall P)); [| constructor].
  intros acc [source_type queries] acc' Hin Hacc.
  apply (for_each_inv_in (Forall P)); [| done].
  intros acc1 query acc1' Hq Hacc1 Hrun. unfold process_query in Hrun.
  apply bind_Ret_inv in Hrun as (results & Hsearch & Hrun).
  revert Hrun. apply (for_each_inv_in (Forall P)); [| done].
  intros acc2 result acc2' Hr Hacc2 Hres.
  destruct (process_result_appends _ _ _ Hres) as [-> | (s & t & n & -> & _)]; [done |].
  apply Forall_app. split; [done |]. constructor; [| done].
  eapply (Hstep query results result acc2 s); try done.
  unfold all_queries. apply list_elem_of_join. exists queries. split; [done |].
  apply list_elem_of_fmap. by exists (source_type, queries).
Qed.

Lemma collect_sources_accepted all_sources :
  collect_sources L E self = Ret all_sources → Forall accepted_source all_sources.
Proof.
  apply collect_sources_inv.
  intros query results result acc s _ _ _ Hres.
  destruct (process_result_appends _ _ _ Hres) as [Heq | (s' & t & n & Heq & _ & Hext & Htext & _ & Hlt & _)].
  { by apply app_singleton_ne in Heq. }
  apply app_inj_tail in Heq as [_ <-].
  apply extract_text_long in Hext.
  split; [by apply Qlt_bool_false |].
  rewrite Htext, str_take_length_min. lia.
Qed.

Lemma collect_sources_provided all_sources :
  collect_sources L E self = Ret all_sources →
  Forall (λ s, provided_url E self (url s)) all_sources.
Proof.
  apply collect_sources_inv.
  intros query results result acc s Hq Hsearch Hin Hres.
  destruct (process_result_appends _ _ _ Hres) as [Heq | (s' & t & n & Heq & Hurl & _)].
  { by apply app_singleton_ne in Heq. }
  apply app_inj_tail in Heq as [_ <-].
  apply search_results_omap in Hsearch as ->.
  apply list_elem_of_omap in Hin as (hit & Hhit & Hof).
  exists query, hit, result. by rewrite Hurl.
Qed.

(** The sources of both sets are taken from the collection. *)
Lemma find_sources_from_collection tape r :
  find_sources L E self tape = Ret r →
  ∃ all_sources sel,
    collect_sources L E self = Ret all_sources ∧
    sel ⊆ filter (λ s, cat s ≠ unknown) all_sources ∧
    f_core <$> (clear_set r ++ unclear_set r) = core <$> sel.
Proof.
  unfold find_sources. intros Hrun.
  apply bind_Ret_inv in Hrun as (all_sources & Hall & Hrun).
  apply bind_Ret_inv in Hrun as (? & _ & Hrun).
  destruct (create_paired_sets_slices E all_sources tape 1) as (rs & us & Hr & Hu & Heq).
  rewrite Heq in Hrun. apply Ret_inj in Hrun. subst r.
  exists all_sources, (clear_of rs us ++ unclear_of rs us).
  split; [done |]. split.
  - intros s Hs. rewrite filter_known_perm, <-Hr, <-Hu.
    eapply elem_of_submseteq; [exact Hs | apply slices_submseteq].
  - cbn [clear_set unclear_set]. by rewrite !fmap_app, !format_all_core.
Qed.
End run_facts.

Lemma build_outputs_collected (L : Libs) (E : Env) (self : SourceFinder)
    (tape : list nat) (r : PairedResult) (f : FormattedSource) :
  build L E self tape = Ret r → f ∈ clear_set r ++ unclear_set r →
  ∃ all_sources s,
    collect_sources L E self = Ret all_sources ∧ s ∈ all_sources ∧
    cat s ≠ unknown ∧ core s = f_core f.
Proof.
  unfold build, try_except, try_catch. intros Hb Hf.
  destruct (find_sources L E self tape) as [p|e] eqn:Hfind.
  - rewrite bind_Ret in Hb. apply Ret_inj in Hb. subst r. cbn [clear_set unclear_set] in Hf.
    destruct (find_sources_from_collection L E self tape p Hfind)
      as (all_sources & sel & Hall & Hsel & Hcore).
    assert (f_core f ∈ core <$> sel) as Hin.
    { rewrite <-Hcore. apply list_elem_of_fmap. by exists f. }
    apply list_elem_of_fmap in Hin as (s & Hs & Hin).
    apply Hsel, list_elem_of_filter in Hin as [Hcat Hin].
    by exists all_sources, s.
  - rewrite bind_Raise in Hb. destruct (is_Exception e); [| done].
    apply Ret_inj in Hb. subst r. by apply elem_of_nil in Hf.
Qed.

(** X12. Every source that [build] returns, in either set, has a score of at
    least 0.35, a text of at least 400 and at most 1000 characters, and a
    category that is reliable or unreliable. *)
Theorem build_outputs_accepted (L : Libs) (E : Env) (self : SourceFinder)
    (tape : list nat) (r : PairedResult) :
  build L E self tape = Ret r →
  Forall accepted (clear_set r ++ unclear_set r).
Proof.
  intros Hb. apply Forall_forall. intros f Hf.
  destruct (build_outputs_collected L E self tape r f Hb Hf)
    as (all_sources & s & Hall & Hs & Hcat & Hcore).
  apply collect_sources_accepted in Hall.
  rewrite Forall_forall in Hall. destruct (Hall s Hs) as [Hscore Hlen].
  unfold core, f_core in Hcore. injection Hcore as _ _ Hc _ Ht Hsc.
  unfold accepted. by rewrite <-Hc, <-Ht, <-Hsc.
Qed.

(** X13. Every url that [build] returns, in either set, is the address of a
    hit that the search provider delivered for one of the queries of the
    object: the run invents no source. *)
Theorem build_urls_provided (L : Libs) (E : Env) (self : SourceFinder)
    (tape : list nat) (r : PairedResult) :
  build L E self tape = Ret r →
  Forall (λ f, provided_url E self (f_url f)) (clear_set r ++ unclear_set r).
Proof.
  intros Hb. apply Forall_forall. intros f Hf.
  destruct (build_outputs_collected L E self tape r f Hb Hf)
    as (all_sources & s & Hall & Hs & Hcat & Hcore).
  apply collect_sources_provided in Hall.
  rewrite Forall_forall in Hall. specialize (Hall s Hs).
  unfold core, f_core in Hcore. injection Hcore as Hu _ _ _ _ _.
  by rewrite <-Hu.
Qed.

Lemma classify_empty_tables (L : Libs) (self : SourceFinder) (u : string) :
  reliable_domains self = ∅ → unreliable_domains self = ∅ →
  _classify_domain L self u = Ret unknown.
Proof.
  intros Hr Hu. unfold _classify_domain, try_except, try_catch.
  rewrite Hr, Hu.
  assert (set_iter L ∅ = []) as ->.
  { apply Permutation_nil_r. by rewrite set_iter_perm, elements_empty. }
  destruct (urlparse_netloc L u) as [n|e] eqn:Hn; [done |].
  rewrite bind_Raise.
  assert (e = ValueError) as ->; [| done].
  unfold urlparse_netloc in Hn. repeat case_match; congruence.
Qed.

Lemma empty_tables_empty_build (L : Libs) (E : Env) (self : SourceFinder)
    (tape : list nat) (r : PairedResult) :
  reliable_domains self = ∅ → unreliable_domains self = ∅ →
  build L E self tape = Ret r → r = empty_result.
Proof.
  intros Hr Hu Hb.
  assert (clear_set r ++ unclear_set r = []) as Hnil.
  { destruct (clear_set r ++ unclear_set r) as [|f fs] eqn:Hout; [done |].
    destruct (build_outputs_collected L E self tape r f Hb) as (all & s & Hall & Hs & Hcat & _).
    { rewrite Hout. left. }
    exfalso. apply Hcat.
    pose proof (collect_sources_inv L E self (λ s, cat s = unknown) all) as Hinv.
    rewrite Forall_forall in Hinv. apply Hinv; [| done | done].
    intros query results result acc s' _ _ _ Hres.
    destruct (process_result_appends _ _ _ _ _ _ Hres)
      as [Heq | (s'' & t & n & Heq & _ & _ & _ & _ & _ & Hc & _)].
    { by apply app_singleton_ne in Heq. }
    apply app_inj_tail in Heq as [_ <-].
    rewrite classify_empty_tables in Hc by done. by injection Hc. }
  apply app_eq_nil in Hnil as [Hc Hn].
  destruct r as [cs us]. cbn in Hc, Hn. by subst.
Qed.

(** X14. When the configuration file is missing or is not JSON, the
    constructor still returns an object, and every [build] of that object
    that returns, returns the two empty sets, whatever the search provider
    finds: without trust tables every source is of unknown category. *)
Theorem missing_config_empty_build (L : Libs) (E : Env) (query path : string) (e : exn) :
  read_json E path = Raise e →
  e = FileNotFoundError ∨ e = JSONDecodeError →
  ∃ self log,
    init L E query path = Ret (self, log) ∧
    ∀ tape r, build L E self tape = Ret r → r = empty_result.
Proof.
  intros Hread He. unfold init, _load_domain_config, load_body. cbn.
  rewrite Hread. cbn.
  destruct He as [-> | ->]; cbn; eexists _, _; (split; [reflexivity |]);
    intros tape r; by apply empty_tables_empty_build.
Qed.

Lemma missing_config_empty_build_witness :
  ∃ self log,
    init demo_libs env_no_config "vaccine safety" "domain_trust_config.json" =
      Ret (self, log) ∧
    build demo_libs env_no_config self [] = Ret empty_result.
Proof.
  destruct (missing_config_empty_build demo_libs env_no_config
              "vaccine safety" "domain_trust_config.json" FileNotFoundError eq_refl
              (or_introl eq_refl))
    as (self & log & Hinit & Hempty).
  exists self, log. split; [exact Hinit |].
  destruct (build demo_libs env_no_config self []) as [r|e] eqn:Hb.
  - by rewrite (Hempty [] r Hb).
  - exfalso. unfold init in Hinit. cbn in Hinit. injection Hinit as <- _.
    vm_compute in Hb. discriminate Hb.
Defined.

Lemma create_paired_sets_eq (E : Env) (sources : list Source) (tape : list nat) (t : nat) :
  _create_paired_sets E sources tape t =
    let rst := shuffle (filter (λ s, cat s = reliable) sources) tape in
    let ust := shuffle (filter (λ s, cat s = unreliable) sources) rst.2 in
    Ret {| clear_set := format_all E t (clear_of rst.1 ust.1);
           unclear_set :=
             format_all E (t + length (clear_of rst.1 ust.1)) (unclear_of rst.1 ust.1) |}.
Proof.
  unfold _create_paired_sets.
  destruct (shuffle (filter (λ s, cat s = reliable) sources) tape) as [rs tape1].
  cbn [fst snd].
  destruct (shuffle (filter (λ s, cat s = unreliable) sources) tape1) as [us tape2].
  cbn [fst snd]. unfold clear_of, unclear_of.
  destruct rs as [|r0 [|r1 [|r2 [|r3 [|r4 rs]]]]];
    destruct us as [|u0 [|u1 [|u2 [|u3 us]]]]; reflexivity.
Qed.

Lemma format_all_clock (E1 E2 : Env) (t : nat) (l : list Source) :
  now_isoformat E1 = now_isoformat E2 → format_all E1 t l = format_all E2 t l.
Proof.
  intros Hclock. revert t. induction l as [|s l IH]; intros t; [done |].
  simpl. by rewrite Hclock, IH.
Qed.

(** X15. A failure of the debug dump changes nothing in what the run
    returns: with any snapshot writer that fails, if at all, with an
    exception of class [Exception], [find_sources] and [build] return what
    they return with a writer that succeeds. *)
Theorem dump_failure_harmless (L : Libs) (E : Env) (self : SourceFinder)
    (tape : list nat) (w : scraped_data → option exn) :
  (∀ d e, w d = Some e → is_Exception e = true) →
  find_sources L (with_write_snapshot E w) self tape =
    find_sources L (with_write_snapshot E (λ _, None)) self tape ∧
  build L (with_write_snapshot E w) self tape =
    build L (with_write_snapshot E (λ _, None)) self tape.
Proof.
  intros Hw.
  assert (find_sources L (with_write_snapshot E w) self tape =
          find_sources L (with_write_snapshot E (λ _, None)) self tape) as Hf.
  { unfold find_sources.
    change (collect_sources L (with_write_snapshot E w) self)
      with (collect_sources L (with_write_snapshot E (λ _, None)) self).
    destruct (collect_sources L (with_write_snapshot E (λ _, None)) self)
      as [all_sources|e]; [| done].
    rewrite !bind_Ret.
    assert (dump_sources (with_write_snapshot E w) self all_sources = Ret ()) as ->.
    { unfold dump_sources, try_except, try_catch. cbn [write_snapshot with_write_snapshot].
      destruct (w _) as [e|] eqn:Hwe; [| done]. by rewrite (Hw _ _ Hwe). }
    assert (dump_sources (with_write_snapshot E (λ _, None)) self all_sources = Ret ())
      as -> by reflexivity.
    rewrite !bind_Ret, !create_paired_sets_eq. cbn zeta.
    by rewrite !(format_all_clock (with_write_snapshot E w)
                   (with_write_snapshot E (λ _, None))). }
  split; [exact Hf |]. unfold build. by rewrite Hf.
Qed.

(** ** Further facts on the scorer and the pairing *)

Lemma startswith_cons (c : ascii) (r s : string) :
  startswith r s = true → startswith (String c r) (String c s) = true.
Proof. intros Hr. cbn [startswith]. by rewrite bool_decide_eq_true_2, Hr. Qed.

Lemma startswith_contains (r s : string) : startswith r s = true → contains r s = true.
Proof. intros Hr. destruct s; cbn [contains]; by rewrite Hr. Qed.

Lemma contains_cons (c : ascii) (r s : string) :
  contains r s = true → contains r (String c s) = true.
Proof. intros Hr. cbn [contains]. rewrite Hr. apply orb_true_r. Qed.

Lemma contains_trans (a b c : string) :
  contains a b = true → contains b c = true → contains a c = true.
Proof.
  rewrite !contains_spec. intros (x & y & ->) (u & v & ->).
  exists (u +:+ x), (y +:+ v). by rewrite !app_assoc_str.
Qed.

(** Every run of word characters occurs in the string, and a string that
    starts with a word character starts with its first run. *)
Lemma word_runs_contains (s : string) :
  Forall (λ r, contains r s = true) (word_runs s) ∧
  match s with
  | String c _ =>
      is_word_char c = true → ∃ r rs, word_runs s = r :: rs ∧ startswith r s = true
  | EmptyString => True
  end.
Proof.
  induction s as [|c s [IH1 IH2]]; [split; [constructor | done] |].
  cbn [word_runs].
  assert (Forall (λ r, contains r (String c s) = true) (word_runs s)) as Hrest.
  { eapply Forall_impl; [exact IH1 |]. intros r. apply contains_cons. }
  assert (∀ l, Forall (λ r, contains r (String c s) = true) l →
               Forall (λ r, contains r (String c s) = true) (String c "" :: l) ∧
               (true = true → ∃ r rs, String c "" :: l = r :: rs ∧
                  startswith r (String c s) = true)) as Hone.
  { intros l Hl. split.
    - constructor; [| done]. cbn [contains startswith]. by rewrite bool_decide_eq_true_2.
    - intros _. eexists _, _. split; [reflexivity |].
      cbn [startswith]. by rewrite bool_decide_eq_true_2. }
  destruct (is_word_char c) eqn:Hc.
  - destruct s as [|d s']; [by apply Hone |].
    destruct (is_word_char d) eqn:Hd.
    + destruct (IH2 eq_refl) as (r & rs & Hruns & Hstart).
      rewrite Hruns in Hrest |- *. apply Forall_cons in Hrest as [_ Hrest].
      split.
      * constructor; [| done]. by apply startswith_contains, startswith_cons.
      * intros _. eexists _, _. split; [reflexivity |]. by apply startswith_cons.
    + destruct (word_runs (String d s')) as [|r rs]; by apply Hone.
  - split; [exact Hrest | done].
Qed.

Lemma extract_keywords_contained (self : SourceFinder) (query : string) :
  Forall (λ k, contains k (lower query) = true) (_extract_keywords self query).
Proof.
  unfold _extract_keywords, findall_words.
  apply Forall_forall. intros k Hk.
  apply list_elem_of_filter in Hk as [_ Hk].
  apply list_elem_of_filter in Hk as [_ Hk].
  destruct (word_runs_contains (lower query)) as [Hall _].
  rewrite Forall_forall in Hall. by apply Hall.
Qed.

(** X16. A text that quotes the query, in any case of the letters, covers
    all its keywords: for a query with keywords its score is at least 0.6
    whatever the similarity ratio, as long as that is not negative, and it
    passes the threshold of [find_sources]. *)
Theorem quoting_text_passes (L : Libs) (self : SourceFinder) (query text : string) :
  (∀ a b, 0 <= token_set_ratio L a b)%Q →
  _extract_keywords self query ≠ [] →
  contains (lower query) (lower text) = true →
  ∃ v, _compute_relevance_score L self query text = Ret v ∧
       (0.6 <= v)%Q ∧ Qlt_bool v 0.35 = false.
Proof.
  intros Hratio Hne Hquote.
  apply full_coverage_score; [done | done |].
  eapply Forall_impl; [apply extract_keywords_contained |].
  intros k Hk. exact (contains_trans _ _ _ Hk Hquote).
Qed.

Lemma quoting_text_passes_witness :
  ∃ v, _compute_relevance_score demo_libs demo_self "vaccine safety"
         "On Vaccine Safety." = Ret v ∧ (0.6 <= v)%Q.
Proof.
  destruct (quoting_text_passes demo_libs demo_self "vaccine safety" "On Vaccine Safety.")
    as (v & Hv & Hle & _).
  - intros a b. simpl. lra.
  - vm_compute. discriminate.
  - vm_compute. reflexivity.
  - exists v. auto.
Defined.

Lemma filter_cat_known (c : category) (l : list Source) :
  c ≠ unknown →
  filter (λ s, cat s = c) (filter (λ s, cat s ≠ unknown) l) = filter (λ s, cat s = c) l.
Proof.
  intros Hc. induction l as [|s l IH]; [done |].
  rewrite !filter_cons.
  destruct (decide (cat s ≠ unknown)) as [Hk|Hk].
  - rewrite filter_cons. case_decide; by rewrite IH.
  - rewrite decide_False; [done |]. intros Heq. apply Hk. by rewrite Heq.
Qed.

(** X17. Sources of unknown category have no influence on the pairing: with
    the same tape and clock, the input and the input without its unknown
    sources give the same two sets. *)
Theorem paired_sets_ignore_unknown (E : Env) (sources : list Source)
    (tape : list nat) (t : nat) :
  _create_paired_sets E (filter (λ s, cat s ≠ unknown) sources) tape t =
  _create_paired_sets E sources tape t.
Proof.
  rewrite !create_paired_sets_eq.
  by rewrite !filter_cat_known.
Qed.

(** ** The further statements at concrete inputs *)

Lemma build_outputs_accepted_witness :
  ∃ r, build demo_libs demo_env demo_self [] = Ret r ∧
       Forall accepted (clear_set r ++ unclear_set r).
Proof.
  destruct (build demo_libs demo_env demo_self []) as [r|e] eqn:Hb.
  - exists r. split; [reflexivity |].
    exact (build_outputs_accepted demo_libs demo_env demo_self [] r Hb).
  - exfalso. vm_compute in Hb. discriminate Hb.
Defined.

Lemma build_urls_provided_witness :
  ∃ r, build demo_libs demo_env demo_self [] = Ret r ∧
       Forall (λ f, provided_url demo_env demo_self (f_url f))
              (clear_set r ++ unclear_set r).
Proof.
  destruct (build demo_libs demo_env demo_self []) as [r|e] eqn:Hb.
  - exists r. split; [reflexivity |].
    exact (build_urls_provided demo_libs demo_env demo_self [] r Hb).
  - exfalso. vm_compute in Hb. discriminate Hb.
Defined.

Lemma dump_failure_harmless_witness :
  build demo_libs (with_write_snapshot demo_env (λ _, Some OSError)) demo_self [] =
  build demo_libs (with_write_snapshot demo_env (λ _, None)) demo_self [].
Proof.
  refine (proj2 (dump_failure_harmless demo_libs demo_env demo_self []
                   (λ _, Some OSError) _)).
  intros d e [= <-]. reflexivity.
Defined.

(** With two reliable sources and no unreliable one the clear set holds the
    two reliable sources and the unclear set is empty. *)
Example scarce_pairing :
  ∃ r, _create_paired_sets demo_env scarce_sources [0] 1 = Ret r ∧
       f_url <$> clear_set r = ["http://example.org/2"; "http://example.org/1"] ∧
       unclear_set r = [].
Proof. eexists. split; [vm_compute; reflexivity |]. split; reflexivity. Qed.

(** ** The bare query is run twice *)

Section repeated_query_facts.
Variables (L : Libs) (E : Env) (self : SourceFinder).

Lemma for_each_append {A B} (body : list B → A → outcome (list B)) xs acc :
  (∀ acc x, body acc x = new ← body [] x; Ret (acc ++ new)) →
  for_each body xs acc = new ← for_each body xs []; Ret (acc ++ new).
Proof.
  intros Hbody. revert acc. induction xs as [|x xs IH]; intros acc.
  - cbn [for_each]. by rewrite bind_Ret, List.app_nil_r.
  - cbn [for_each]. rewrite (Hbody acc x).
    destruct (body [] x) as [new|e]; [| done].
    rewrite !bind_Ret, (IH (acc ++ new)), (IH new).
    destruct (for_each body xs []) as [more|e]; [| done].
    by rewrite !bind_Ret, (assoc_L (++)).
Qed.

Lemma process_result_append acc result :
  process_result L E self acc result =
    new ← process_result L E self [] result; Ret (acc ++ new).
Proof.
  unfold process_result.
  destruct (_extract_text_from_url E (r_url result)) as [[t|]|e]; rewrite ?bind_Ret, ?bind_Raise;
    [| by rewrite List.app_nil_r | done].
  destruct (negb (truthy t)); [by rewrite bind_Ret, List.app_nil_r |].
  destruct (_compute_relevance_score L self (gold_query self) t) as [v|e];
    rewrite ?bind_Ret, ?bind_Raise; [| done].
  destruct (Qlt_bool v 0.35); [by rewrite bind_Ret, List.app_nil_r |].
  destruct (_classify_domain L self (r_url result)) as [c|e];
    rewrite ?bind_Ret, ?bind_Raise; [| done].
  destruct (urlparse_netloc L (r_url result)) as [n|e];
    rewrite ?bind_Ret, ?bind_Raise; [| done].
  by rewrite List.app_nil_l.
Qed.

Lemma process_query_append acc query :
  process_query L E self acc query =
    new ← process_query L E self [] query; Ret (acc ++ new).
Proof.
  unfold process_query.
  destruct (_search_duckduckgo E query 15) as [results|e]; rewrite ?bind_Ret, ?bind_Raise;
    [| done].
  apply for_each_append. intros. apply process_result_append.
Qed.

Lemma for_each_cons {A S} (body : S → A → outcome S) x xs acc :
  for_each body (x :: xs) acc = acc' ← body acc x; for_each body xs acc'.
Proof. reflexivity. Qed.

Lemma collect_sources_plan (a b : string) (qs1 qs2 : list string) :
  search_queries self = [(a, qs1); (b, qs2)] →
  collect_sources L E self =
    acc ← for_each (process_query L E self) qs1 [];
    for_each (process_query L E self) qs2 acc.
Proof.
  intros Hplan. unfold collect_sources. rewrite Hplan.
  rewrite !for_each_cons. cbn beta iota.
  destruct (for_each (process_query L E self) qs1 []) as [acc|e]; [| done].
  rewrite !bind_Ret, for_each_cons. cbn beta iota.
  destruct (for_each (process_query L E self) qs2 acc) as [acc'|e]; done.
Qed.
End repeated_query_facts.

(** X18. For an object whose query plan is the one the constructor makes,
    the sources that the run collects are those found for the bare gold
    query, then those of the other four queries of the reliable plan, then
    those found for the bare gold query once more, then those of the other
    six queries of the unreliable plan: what the bare query finds is
    collected twice. *)
Theorem bare_query_collected_twice (L : Libs) (E : Env) (self : SourceFinder)
    (all_sources : list Source) :
  search_queries self = make_search_queries (gold_query self) →
  collect_sources L E self = Ret all_sources →
  ∃ bare rest1 rest2,
    process_query L E self [] (gold_query self) = Ret bare ∧
    all_sources = bare ++ rest1 ++ bare ++ rest2.
Proof.
  intros Hplan. rewrite (collect_sources_plan L E self _ _ _ _ Hplan).
  intros Hrun.
  apply bind_Ret_inv in Hrun as (acc1 & Hfirst & Hsecond).
  rewrite for_each_cons in Hfirst, Hsecond.
  apply bind_Ret_inv in Hfirst as (bare & Hbare & Hfirst).
  rewrite (for_each_append (process_query L E self)) in Hfirst
    by (intros; apply process_query_append).
  apply bind_Ret_inv in Hfirst as (rest1 & _ & Hfirst).
  apply Ret_inj in Hfirst. subst acc1.
  rewrite process_query_append, Hbare, !bind_Ret in Hsecond.
  rewrite (for_each_append (process_query L E self)) in Hsecond
    by (intros; apply process_query_append).
  apply bind_Ret_inv in Hsecond as (rest2 & _ & Hsecond).
  apply Ret_inj in Hsecond. subst all_sources.
  exists bare, rest1, rest2. split; [done |].
  by rewrite <-!(assoc_L (++)).
Qed.

Lemma bare_query_collected_twice_witness :
  ∃ all_sources bare rest1 rest2,
    collect_sources demo_libs env_no_config demo_self = Ret all_sources ∧
    length bare = 1 ∧ all_sources = bare ++ rest1 ++ bare ++ rest2.
Proof.
  destruct (collect_sources demo_libs env_no_config demo_self) as [all|e] eqn:Hc.
  - destruct (bare_query_collected_twice demo_libs env_no_config demo_self all
                eq_refl Hc) as (bare & rest1 & rest2 & Hbare & Hall).
    exists all, bare, rest1, rest2. split; [reflexivity |]. split; [| exact Hall].
    vm_compute in Hbare. injection Hbare as <-. reflexivity.
  - exfalso. vm_compute in Hc. discriminate Hc.
Defined.

(** X19. Every subdomain of a matching domain matches: when a URL is
    classified reliable, a URL whose lower-cased network location, with
    ["www."] removed, is that of the first with a label and a dot put in
    front is classified reliable too. *)
Theorem reliable_subdomains (L : Libs) (self : SourceFinder) (u1 u2 n1 n2 label : string) :
  urlparse_netloc L u1 = Ret n1 →
  urlparse_netloc L u2 = Ret n2 →
  replace_www (lower n2) = label +:+ "." +:+ replace_www (lower n1) →
  _classify_domain L self u1 = Ret reliable →
  _classify_domain L self u2 = Ret reliable.
Proof.
  intros H1 H2 Hsub. unfold _classify_domain, try_except, try_catch.
  rewrite H1, H2, !bind_Ret. cbn zeta. rewrite Hsub.
  set (d := replace_www (lower n1)).
  destruct (any_match d (set_iter L (reliable_domains self))) as [[]|x] eqn:Hd.
  - intros _.
    assert (any_match (label +:+ "." +:+ d) (set_iter L (reliable_domains self)) = Ret true)
      as ->; [| done].
    apply (any_match_mono d); [| done].
    intros e Hm. apply domain_matches_spec in Hm. apply domain_matches_spec. right.
    destruct Hm as [-> | [p ->]]; [by exists label |].
    exists (label +:+ "." +:+ p). by rewrite !app_assoc_str.
  - rewrite bind_Ret.
    destruct (any_match d (set_iter L (unreliable_domains self))) as [[]|x]; cbn;
      [done | done | by destruct (is_Exception x)].
  - rewrite bind_Raise. by destruct (is_Exception x).
Qed.

Lemma reliable_subdomains_witness :
  _classify_domain demo_libs demo_self "https://data.portal.example.org/x?y" = Ret reliable.
Proof.
  refine (reliable_subdomains demo_libs demo_self
            "http://portal.example.org/" "https://data.portal.example.org/x?y"
            "portal.example.org" "data.portal.example.org" "data" _ _ _ _).
  - vm_compute. reflexivity.
  - vm_compute. reflexivity.
  - vm_compute. reflexivity.
  - vm_compute. reflexivity.
Defined.
